(** * crucible-trader / quant-cpp: Black-Scholes pricer, implied-volatility
      solver and Monte Carlo simulator

    Shallow embedding of [src/black_scholes.cpp], [src/monte_carlo.cpp] and
    the handlers of [src/grpc_service.cpp].

    Number model.  The sources are embedded twice.

    In the first embedding a C++ [double] is a real number ([R]) and the
    [<cmath>] functions are the mathematical functions they approximate:
    [std::exp], [std::log], [std::sqrt] and [std::abs] are [exp], [ln], [sqrt]
    and [Rabs]; [std::erfc] is built below from the Riemann integral of the
    Gaussian.  It serves the statements about which formula or algorithm the
    code evaluates, the analytic statements about these formulas (their
    derivatives), and the statements that binary64 evaluation also meets,
    whose hypotheses then bound the inputs accordingly.

    In the second embedding (module [B64]) a [double] is a binary64 number
    and the arithmetic is IEEE 754; [std::exp], [std::log] and [std::erfc]
    are parameters.  It serves the statements that rounding, overflow or NaN
    decide: the signs of the results, the clamp, the bisection from the
    default bounds, and the inputs on which a statement of exact arithmetic
    fails.

    The unsigned counters ([std::size_t], [std::uint32_t]) are binary
    naturals ([N]) with the wrap-around of [iteration + 1] written out. *)

From Stdlib Require Import Reals Lra Lia List NArith ZArith Bool.
From Stdlib Require Floats Uint63 String.
Import ListNotations.

Local Open Scope R_scope.

(* ================================================================== *)
(** * [<cmath>]: the complementary error function *)
(* ================================================================== *)

Module Cmath.

(** The integrand of the error function, [t |-> exp (- t^2)]. *)
Definition gauss (t : R) : R := exp (- (t * t)).

Lemma gauss_continuity : continuity gauss.
Proof.
  unfold gauss.
  change (continuity (comp exp (- (id * id))%F)).
  apply continuity_comp.
  - apply continuity_opp, continuity_mult; apply derivable_continuous, derivable_id.
  - apply derivable_continuous, derivable_exp.
Qed.

Lemma gauss_pos (t : R) : 0 < gauss t.
Proof. apply exp_pos. Qed.

(** [gauss] is Riemann-integrable between any two bounds, in either order. *)
Lemma gauss_integrable (a b : R) : Riemann_integrable gauss a b.
Proof.
  destruct (Rle_dec a b) as [Hab | Hab].
  - apply continuity_implies_RiemannInt; [exact Hab | intros; apply gauss_continuity].
  - apply RiemannInt_P1, continuity_implies_RiemannInt;
      [lra | intros; apply gauss_continuity].
Qed.

(** [gauss_int x] is the integral of [gauss] from [0] to [x]. *)
Definition gauss_int (x : R) : R := RiemannInt (gauss_integrable 0 x).

(** [std::erf] and [std::erfc]:
    [erf x = 2/sqrt(pi) * int_0^x exp(-t^2) dt], [erfc x = 1 - erf x]. *)
Definition erf (x : R) : R := 2 / sqrt PI * gauss_int x.
Definition erfc (x : R) : R := 1 - erf x.

End Cmath.

(** [std::max(a, b)] is [(a < b) ? b : a]. *)
Definition std_max (a b : R) : R := if Rlt_dec a b then b else a.

(* ================================================================== *)
(** * include/quant/black_scholes.hpp, monte_carlo.hpp: the value types *)
(* ================================================================== *)

Module OptionInput.
Record t : Type := Build {
  spot : R;
  strike : R;
  rate : R;
  volatility : R;
  time_to_maturity : R;
  dividend_yield : R;
  is_call : bool
}.

(** [guess = option; guess.volatility = v] *)
Definition with_volatility (o : t) (v : R) : t :=
  Build (spot o) (strike o) (rate o) v (time_to_maturity o)
        (dividend_yield o) (is_call o).

(** The same contract with the call/put flag set to [b]. *)
Definition with_is_call (o : t) (b : bool) : t :=
  Build (spot o) (strike o) (rate o) (volatility o) (time_to_maturity o)
        (dividend_yield o) b.
End OptionInput.

Module OptionGreeks.
Record t : Type := Build {
  price : R;
  delta : R;
  gamma : R;
  vega : R;
  theta : R;
  rho : R
}.
End OptionGreeks.

Module ImpliedVolatilityResult.
Record t : Type := Build {
  implied_volatility : R;
  converged : bool;
  iterations : N
}.
End ImpliedVolatilityResult.

Module MonteCarloResult.
Record t : Type := Build {
  price : R;
  standard_error : R
}.
End MonteCarloResult.

(* ================================================================== *)
(** * src/black_scholes.cpp *)
(* ================================================================== *)

(** The two constants of the anonymous namespace.  The source writes them as
    decimal literals, [kSqrtTwo = 1.41421356237309504880] and
    [kInvSqrtTwoPi = 0.39894228040143267794  // 1/sqrt(2*pi)]: the binary64
    roundings of [sqrt 2] and [1 / sqrt (2 pi)].  In the real-number model a
    rounded constant stands for the number it rounds (see [kSqrtTwo_literal],
    [kInvSqrtTwoPi_literal] and [Binary64Facts] below). *)
Definition kSqrtTwo : R := sqrt 2.
Definition kInvSqrtTwoPi : R := / sqrt (2 * PI).

Definition normal_pdf (x : R) : R :=
  kInvSqrtTwoPi * exp (-0.5 * x * x).

Definition normal_cdf (x : R) : R :=
  0.5 * Cmath.erfc (- x / kSqrtTwo).

(** [const double eps = 1e-9] of [black_scholes]. *)
Definition eps : R := 1e-9.

Definition black_scholes (option : OptionInput.t) : OptionGreeks.t :=
  let S := std_max (OptionInput.spot option) eps in
  let K := std_max (OptionInput.strike option) eps in
  let r := OptionInput.rate option in
  let q := OptionInput.dividend_yield option in
  let sigma := std_max (OptionInput.volatility option) eps in
  let T := std_max (OptionInput.time_to_maturity option) eps in
  let sqrtT := sqrt T in
  let sigmaSqT := sigma * sqrtT in
  let forward := S * exp (- q * T) in
  let discount := exp (- r * T) in
  let logTerm := ln (S / K) in
  let d1 := (logTerm + (r - q + 0.5 * sigma * sigma) * T) / sigmaSqT in
  let d2 := d1 - sigmaSqT in
  let pdfD1 := normal_pdf d1 in
  let '(price, delta, theta, rho) :=
    if OptionInput.is_call option then
      (forward * normal_cdf d1 - K * discount * normal_cdf d2,
       exp (- q * T) * normal_cdf d1,
       - (S * exp (- q * T) * pdfD1 * sigma) / (2.0 * sqrtT)
         - r * K * discount * normal_cdf d2
         + q * S * exp (- q * T) * normal_cdf d1,
       K * T * discount * normal_cdf d2)
    else
      (K * discount * normal_cdf (- d2) - forward * normal_cdf (- d1),
       exp (- q * T) * (normal_cdf d1 - 1.0),
       - (S * exp (- q * T) * pdfD1 * sigma) / (2.0 * sqrtT)
         + r * K * discount * normal_cdf (- d2)
         - q * S * exp (- q * T) * normal_cdf (- d1),
       - K * T * discount * normal_cdf (- d2)) in
  let gamma := exp (- q * T) * pdfD1 / (S * sigmaSqT) in
  let vega := S * exp (- q * T) * pdfD1 * sqrtT in
  OptionGreeks.Build price delta gamma vega theta rho.

(** ** [implied_volatility] *)

(** The local variables of [implied_volatility] that the loop updates. *)
Module IvState.
Record t : Type := Build {
  low : R;
  high : R;
  mid : R;
  converged : bool;
  iteration : N
}.

Definition next_iteration (st : t) : t :=
  Build (low st) (high st) (mid st) (converged st) (iteration st + 1)%N.
End IvState.

(** How one pass through a loop body ends: at a [break], or at the closing
    brace (the [for] then runs its increment and tests its condition). *)
Inductive control : Type := Break | Next.

Section BisectionLoop.

(** [price_at mid] is [black_scholes(guess).price] for the [guess] whose
    volatility is [mid]. *)
Variable price_at : R -> R.
Variables target_price tolerance : R.

(** One pass through the body of the [for] loop (lines 92-112). *)
Definition iv_body (st : IvState.t) : IvState.t * control :=
  let mid := 0.5 * (IvState.low st + IvState.high st) in
  let price := price_at mid in
  let diff := price - target_price in
  if Rlt_dec (Rabs diff) tolerance then
    (IvState.Build (IvState.low st) (IvState.high st) mid true
                   (IvState.iteration st), Break)
  else
    let '(low, high) :=
      if Rgt_dec diff 0.0 then (IvState.low st, mid)
      else (mid, IvState.high st) in
    if Rlt_dec (Rabs (high - low)) tolerance then
      (IvState.Build low high mid true (IvState.iteration st), Break)
    else
      (IvState.Build low high mid (IvState.converged st)
                     (IvState.iteration st), Next).

(** [for (; iteration < max_iterations; ++iteration) body], by recursion on
    the number [max_iterations - iteration] of passes the condition still
    allows. *)
Fixpoint iv_loop (remaining : nat) (st : IvState.t) : IvState.t :=
  match remaining with
  | O => st
  | S remaining' =>
      match iv_body st with
      | (st', Break) => st'
      | (st', Next) => iv_loop remaining' (IvState.next_iteration st')
      end
  end.

(** The number of passes through the body that [iv_loop] makes. *)
Fixpoint iv_passes (remaining : nat) (st : IvState.t) : nat :=
  match remaining with
  | O => O
  | S remaining' =>
      match iv_body st with
      | (_, Break) => 1%nat
      | (st', Next) => S (iv_passes remaining' (IvState.next_iteration st'))
      end
  end.

(** The states in which the passes of [iv_loop] end, in order. *)
Fixpoint iv_trace (remaining : nat) (st : IvState.t) : list IvState.t :=
  match remaining with
  | O => []
  | S remaining' =>
      match iv_body st with
      | (st', Break) => [st']
      | (st', Next) => st' :: iv_trace remaining' (IvState.next_iteration st')
      end
  end.

End BisectionLoop.

(** [std::size_t] is 64 bits wide: its arithmetic is modulo [2^64]. *)
Definition size_t_modulus : N := 2 ^ 64.

Definition iv_init (lower_bound upper_bound : R) : IvState.t :=
  IvState.Build lower_bound upper_bound 0.0 false 0%N.

(** [black_scholes(guess).price] as a function of the guessed volatility. *)
Definition guess_price (option : OptionInput.t) (mid : R) : R :=
  OptionGreeks.price (black_scholes (OptionInput.with_volatility option mid)).

Definition implied_volatility (option : OptionInput.t) (target_price : R)
    (lower_bound upper_bound tolerance : R) (max_iterations : N)
  : ImpliedVolatilityResult.t :=
  let st := iv_loop (guess_price option) target_price tolerance
                    (N.to_nat max_iterations)
                    (iv_init lower_bound upper_bound) in
  ImpliedVolatilityResult.Build
    (IvState.mid st)
    (IvState.converged st)
    ((IvState.iteration st + 1) mod size_t_modulus)%N.

(** The default arguments of the declaration in [black_scholes.hpp]. *)
Definition default_lower_bound : R := 1e-6.
Definition default_upper_bound : R := 5.0.
Definition default_tolerance : R := 1e-6.
Definition default_max_iterations : N := 100.

(** The number of times [implied_volatility] runs the body of its loop. *)
Definition executed_iterations (option : OptionInput.t) (target_price : R)
    (lower_bound upper_bound tolerance : R) (max_iterations : N) : nat :=
  iv_passes (guess_price option) target_price tolerance
            (N.to_nat max_iterations) (iv_init lower_bound upper_bound).

(* ================================================================== *)
(** * src/grpc_service.cpp: the caller's clamp *)
(* ================================================================== *)

Definition sanitize_option (option : OptionInput.t) : OptionInput.t :=
  OptionInput.Build
    (std_max (OptionInput.spot option) 1e-6)
    (std_max (OptionInput.strike option) 1e-6)
    (OptionInput.rate option)
    (std_max (OptionInput.volatility option) 1e-6)
    (std_max (OptionInput.time_to_maturity option) 1e-6)
    (OptionInput.dividend_yield option)
    (OptionInput.is_call option).

(* ================================================================== *)
(** * src/monte_carlo.cpp *)
(* ================================================================== *)

(** [static_cast<double>(paths)] *)
Definition double_of_uint32 (n : N) : R := IZR (Z.of_N n).

Module McState.
Section WithRng.
Variable rng_state : Type.
Record t : Type := Build {
  rng : rng_state;
  payoffs : list R;
  sum : R
}.
End WithRng.
Arguments Build {rng_state}.
Arguments rng {rng_state}.
Arguments payoffs {rng_state}.
Arguments sum {rng_state}.
End McState.

Section MonteCarlo.

(** [<random>]: the state of [rng] together with [standard_normal], the
    seeding [std::mt19937 rng(seed)], and one draw [standard_normal(rng)],
    which returns the variate and advances the state. *)
Variable rng_state : Type.
Variable mt19937 : N -> rng_state.
Variable standard_normal : rng_state -> R * rng_state.

Section Paths.
Variable option : OptionInput.t.

Let S := OptionInput.spot option.
Let K := OptionInput.strike option.
Let r := OptionInput.rate option.
Let q := OptionInput.dividend_yield option.
Let sigma := OptionInput.volatility option.
Let T := OptionInput.time_to_maturity option.

Definition mc_drift : R := (r - q - 0.5 * sigma * sigma) * T.
Definition mc_diffusion : R := sigma * sqrt T.
Definition mc_discount : R := exp (- r * T).

(** The payoff of the path whose variate is [z]. *)
Definition mc_payoff (z : R) : R :=
  let terminal := S * exp (mc_drift + mc_diffusion * z) in
  if OptionInput.is_call option
  then std_max (terminal - K) 0.0
  else std_max (K - terminal) 0.0.

(** One pass through the body of the simulation loop (lines 37-43). *)
Definition mc_path (st : McState.t rng_state) : McState.t rng_state :=
  let '(z, rng') := standard_normal (McState.rng st) in
  let payoff := mc_payoff z in
  McState.Build rng' (McState.payoffs st ++ [payoff])
                (McState.sum st + payoff).

(** [for (std::uint32_t i = 0; i < paths; ++i) body] *)
Fixpoint mc_simulate (remaining : nat) (st : McState.t rng_state)
  : McState.t rng_state :=
  match remaining with
  | O => st
  | Datatypes.S remaining' => mc_simulate remaining' (mc_path st)
  end.

(** [for (double payoff : payoffs) { diff = ...; variance_sum += diff * diff; }] *)
Definition mc_variance_sum (mean_payoff : R) (payoffs : list R) : R :=
  fold_left (fun variance_sum payoff =>
               let diff := payoff - mean_payoff in
               variance_sum + diff * diff)
            payoffs 0.0.

(** The vector [payoffs] after the simulation loop. *)
Definition mc_payoffs (paths seed : N) : list R :=
  McState.payoffs
    (mc_simulate (N.to_nat paths) (McState.Build (mt19937 seed) [] 0.0)).

Definition monte_carlo_price (paths seed : N) : MonteCarloResult.t :=
  if (paths =? 0)%N then MonteCarloResult.Build 0.0 0.0
  else
    let st := mc_simulate (N.to_nat paths)
                          (McState.Build (mt19937 seed) [] 0.0) in
    let mean_payoff := McState.sum st / double_of_uint32 paths in
    let variance_sum := mc_variance_sum mean_payoff (McState.payoffs st) in
    let variance := variance_sum / double_of_uint32 paths in
    let stddev := sqrt variance in
    let standard_error := stddev / sqrt (double_of_uint32 paths) in
    MonteCarloResult.Build (mc_discount * mean_payoff)
                           (mc_discount * standard_error).
End Paths.

End MonteCarlo.

(* ================================================================== *)
(** * src/grpc_service.cpp: the service *)
(* ================================================================== *)

(** Modelled from the spec: the messages of [quant.proto] (generated code,
    not under src/), as records of the fields that section 6 lists and that
    the source reads through accessors or writes through setters.  A
    [uint32] field is a binary natural. *)
Module Proto.

Module OptionSpecification.
Record t : Type := Build {
  spot : R;
  strike : R;
  rate : R;
  volatility : R;
  time_to_maturity : R;
  dividend : R;
  is_call : bool
}.
End OptionSpecification.

Module PriceRequest.
Record t : Type := Build { option : OptionSpecification.t }.
End PriceRequest.

Module PriceResponse.
Record t : Type := Build { price : R }.
Definition set_price (m : t) (v : R) : t := Build v.
End PriceResponse.

Module GreeksResponse.
Record t : Type := Build {
  price : R;
  delta : R;
  gamma : R;
  vega : R;
  theta : R;
  rho : R
}.
Definition set_price (m : t) (v : R) : t :=
  Build v (delta m) (gamma m) (vega m) (theta m) (rho m).
Definition set_delta (m : t) (v : R) : t :=
  Build (price m) v (gamma m) (vega m) (theta m) (rho m).
Definition set_gamma (m : t) (v : R) : t :=
  Build (price m) (delta m) v (vega m) (theta m) (rho m).
Definition set_vega (m : t) (v : R) : t :=
  Build (price m) (delta m) (gamma m) v (theta m) (rho m).
Definition set_theta (m : t) (v : R) : t :=
  Build (price m) (delta m) (gamma m) (vega m) v (rho m).
Definition set_rho (m : t) (v : R) : t :=
  Build (price m) (delta m) (gamma m) (vega m) (theta m) v.
End GreeksResponse.

Module ImpliedVolRequest.
Record t : Type := Build {
  option : OptionSpecification.t;
  target_price : R
}.
End ImpliedVolRequest.

Module ImpliedVolResponse.
Record t : Type := Build {
  implied_volatility : R;
  converged : bool;
  iterations : N
}.
Definition set_implied_volatility (m : t) (v : R) : t :=
  Build v (converged m) (iterations m).
Definition set_converged (m : t) (v : bool) : t :=
  Build (implied_volatility m) v (iterations m).
Definition set_iterations (m : t) (v : N) : t :=
  Build (implied_volatility m) (converged m) v.
End ImpliedVolResponse.

Module MonteCarloRequest.
Record t : Type := Build {
  option : OptionSpecification.t;
  paths : N;
  seed : N
}.
End MonteCarloRequest.

Module MonteCarloResponse.
Record t : Type := Build {
  price : R;
  standard_error : R
}.
Definition set_price (m : t) (v : R) : t := Build v (standard_error m).
Definition set_standard_error (m : t) (v : R) : t := Build (price m) v.
End MonteCarloResponse.

End Proto.

(** [grpc::Status]: a code and a message; [grpc::Status::OK] has the code
    [OK] and an empty message. *)
Module Grpc.
Inductive StatusCode : Type := OK | INVALID_ARGUMENT.
Record Status : Type := Build {
  error_code : StatusCode;
  error_message : String.string
}.
Definition Status_OK : Status := Build OK String.EmptyString.
End Grpc.

Definition option_from_proto (proto : Proto.OptionSpecification.t)
  : OptionInput.t :=
  OptionInput.Build
    (Proto.OptionSpecification.spot proto)
    (Proto.OptionSpecification.strike proto)
    (Proto.OptionSpecification.rate proto)
    (Proto.OptionSpecification.volatility proto)
    (Proto.OptionSpecification.time_to_maturity proto)
    (Proto.OptionSpecification.dividend proto)
    (Proto.OptionSpecification.is_call proto).

(** [static_cast<std::uint32_t>(n)] of a [std::size_t]. *)
Definition uint32_of_size (n : N) : N := (n mod 2 ^ 32)%N.

(** The status of the guard [request == nullptr || response == nullptr]. *)
Module NullGuard.
Import String.
Definition message : string := "request/response must not be null"%string.
End NullGuard.

Definition null_status : Grpc.Status :=
  Grpc.Build Grpc.INVALID_ARGUMENT NullGuard.message.

(** The four handlers of [QuantGrpcService].  A pointer argument is an
    [option] ([None] is [nullptr]); a handler returns its status together
    with the message that [response] points to when it returns.  The unnamed
    [grpc::ServerContext*] is not read. *)
Definition Price (request : option Proto.PriceRequest.t)
    (response : option Proto.PriceResponse.t)
  : Grpc.Status * option Proto.PriceResponse.t :=
  match request, response with
  | Some req, Some resp =>
      let option :=
        sanitize_option (option_from_proto (Proto.PriceRequest.option req)) in
      let greeks := black_scholes option in
      (Grpc.Status_OK,
       Some (Proto.PriceResponse.set_price resp (OptionGreeks.price greeks)))
  | _, _ => (null_status, response)
  end.

Definition Greeks (request : option Proto.PriceRequest.t)
    (response : option Proto.GreeksResponse.t)
  : Grpc.Status * option Proto.GreeksResponse.t :=
  match request, response with
  | Some req, Some resp =>
      let option :=
        sanitize_option (option_from_proto (Proto.PriceRequest.option req)) in
      let greeks := black_scholes option in
      let resp := Proto.GreeksResponse.set_price resp (OptionGreeks.price greeks) in
      let resp := Proto.GreeksResponse.set_delta resp (OptionGreeks.delta greeks) in
      let resp := Proto.GreeksResponse.set_gamma resp (OptionGreeks.gamma greeks) in
      let resp := Proto.GreeksResponse.set_vega resp (OptionGreeks.vega greeks) in
      let resp := Proto.GreeksResponse.set_theta resp (OptionGreeks.theta greeks) in
      let resp := Proto.GreeksResponse.set_rho resp (OptionGreeks.rho greeks) in
      (Grpc.Status_OK, Some resp)
  | _, _ => (null_status, response)
  end.

Definition ImpliedVol (request : option Proto.ImpliedVolRequest.t)
    (response : option Proto.ImpliedVolResponse.t)
  : Grpc.Status * option Proto.ImpliedVolResponse.t :=
  match request, response with
  | Some req, Some resp =>
      let option :=
        sanitize_option
          (option_from_proto (Proto.ImpliedVolRequest.option req)) in
      let option :=
        OptionInput.with_volatility option
          (std_max (OptionInput.volatility option) 1e-6) in
      let result :=
        implied_volatility option (Proto.ImpliedVolRequest.target_price req)
          default_lower_bound default_upper_bound default_tolerance
          default_max_iterations in
      let resp := Proto.ImpliedVolResponse.set_implied_volatility resp
                    (ImpliedVolatilityResult.implied_volatility result) in
      let resp := Proto.ImpliedVolResponse.set_converged resp
                    (ImpliedVolatilityResult.converged result) in
      let resp := Proto.ImpliedVolResponse.set_iterations resp
                    (uint32_of_size
                       (ImpliedVolatilityResult.iterations result)) in
      (Grpc.Status_OK, Some resp)
  | _, _ => (null_status, response)
  end.

Section MonteCarloHandler.

Variable rng_state : Type.
Variable mt19937 : N -> rng_state.
Variable standard_normal : rng_state -> R * rng_state.

Definition MonteCarlo (request : option Proto.MonteCarloRequest.t)
    (response : option Proto.MonteCarloResponse.t)
  : Grpc.Status * option Proto.MonteCarloResponse.t :=
  match request, response with
  | Some req, Some resp =>
      let option :=
        sanitize_option
          (option_from_proto (Proto.MonteCarloRequest.option req)) in
      let paths :=
        if (Proto.MonteCarloRequest.paths req =? 0)%N then 10000%N
        else Proto.MonteCarloRequest.paths req in
      let seed := Proto.MonteCarloRequest.seed req in
      let result :=
        monte_carlo_price rng_state mt19937 standard_normal option paths seed in
      let resp := Proto.MonteCarloResponse.set_price resp
                    (MonteCarloResult.price result) in
      let resp := Proto.MonteCarloResponse.set_standard_error resp
                    (MonteCarloResult.standard_error result) in
      (Grpc.Status_OK, Some resp)
  | _, _ => (null_status, response)
  end.

End MonteCarloHandler.

(* ================================================================== *)
(** * tests/test_black_scholes.cpp: the option under test *)
(* ================================================================== *)

(** [call_option] ([is_call = true]) and [put_option] ([is_call = false]). *)
Definition test_option (is_call : bool) : OptionInput.t :=
  OptionInput.Build 100.0 100.0 0.01 0.2 1.0 0.0 is_call.

(* ================================================================== *)
(** * The constants in binary64 *)
(* ================================================================== *)

(** The decimal literals of [black_scholes.cpp] as the compiler reads them
    (the nearest binary64 number), and the value of [M_PI]. *)
Module Binary64.
Import PrimFloat.
#[warnings="-inexact-float"]
Definition kSqrtTwo : PrimFloat.float := 1.41421356237309504880%float.
#[warnings="-inexact-float"]
Definition kInvSqrtTwoPi : PrimFloat.float := 0.39894228040143267794%float.
Definition pi : PrimFloat.float := 0x1.921fb54442d18p+1%float.
End Binary64.

(* ================================================================== *)
(** * The same sources on binary64 *)
(* ================================================================== *)

(** The second embedding: a C++ [double] is a binary64 number
    ([PrimFloat.float]) and [+], [-], [*], [/], [std::sqrt], [std::abs], [<]
    and [<=] are the IEEE 754 operations, each rounded to nearest, ties to
    even (the default rounding mode; no operation is fused with another).
    The definitions repeat those above line by line.  [std::exp], [std::log]
    and [std::erfc] come from the C library: they are parameters here, and
    the theorems state what they use of them. *)
Module B64.
Import PrimFloat.
Local Open Scope float_scope.

(** [std::max(a, b)] is [(a < b) ? b : a]: when [a] is NaN the comparison
    is false and the result is [a]. *)
Definition std_max (a b : float) : float := if a <? b then b else a.

(** [<cmath>]: the three library functions that the sources call. *)
Module Libm.
Record t : Type := Build {
  exp : float -> float;
  log : float -> float;
  erfc : float -> float
}.
End Libm.

Module OptionInput.
Record t : Type := Build {
  spot : float;
  strike : float;
  rate : float;
  volatility : float;
  time_to_maturity : float;
  dividend_yield : float;
  is_call : bool
}.

Definition with_volatility (o : t) (v : float) : t :=
  Build (spot o) (strike o) (rate o) v (time_to_maturity o)
        (dividend_yield o) (is_call o).

Definition with_is_call (o : t) (b : bool) : t :=
  Build (spot o) (strike o) (rate o) (volatility o) (time_to_maturity o)
        (dividend_yield o) b.
End OptionInput.

Module OptionGreeks.
Record t : Type := Build {
  price : float;
  delta : float;
  gamma : float;
  vega : float;
  theta : float;
  rho : float
}.
End OptionGreeks.

Module ImpliedVolatilityResult.
Record t : Type := Build {
  implied_volatility : float;
  converged : bool;
  iterations : N
}.
End ImpliedVolatilityResult.

Module MonteCarloResult.
Record t : Type := Build {
  price : float;
  standard_error : float
}.
End MonteCarloResult.

(** ** [black_scholes.cpp] *)

Definition kSqrtTwo : float := Binary64.kSqrtTwo.
Definition kInvSqrtTwoPi : float := Binary64.kInvSqrtTwoPi.

#[warnings="-inexact-float"]
Definition eps : float := 1e-9.

Section WithLibm.
Variable m : Libm.t.

Definition normal_pdf (x : float) : float :=
  kInvSqrtTwoPi * Libm.exp m (-0.5 * x * x).

Definition normal_cdf (x : float) : float :=
  0.5 * Libm.erfc m (- x / kSqrtTwo).

Definition black_scholes (option : OptionInput.t) : OptionGreeks.t :=
  let S := std_max (OptionInput.spot option) eps in
  let K := std_max (OptionInput.strike option) eps in
  let r := OptionInput.rate option in
  let q := OptionInput.dividend_yield option in
  let sigma := std_max (OptionInput.volatility option) eps in
  let T := std_max (OptionInput.time_to_maturity option) eps in
  let sqrtT := sqrt T in
  let sigmaSqT := sigma * sqrtT in
  let forward := S * Libm.exp m (- q * T) in
  let discount := Libm.exp m (- r * T) in
  let logTerm := Libm.log m (S / K) in
  let d1 := (logTerm + (r - q + 0.5 * sigma * sigma) * T) / sigmaSqT in
  let d2 := d1 - sigmaSqT in
  let pdfD1 := normal_pdf d1 in
  let '(price, delta, theta, rho) :=
    if OptionInput.is_call option then
      (forward * normal_cdf d1 - K * discount * normal_cdf d2,
       Libm.exp m (- q * T) * normal_cdf d1,
       - (S * Libm.exp m (- q * T) * pdfD1 * sigma) / (2.0 * sqrtT)
         - r * K * discount * normal_cdf d2
         + q * S * Libm.exp m (- q * T) * normal_cdf d1,
       K * T * discount * normal_cdf d2)
    else
      (K * discount * normal_cdf (- d2) - forward * normal_cdf (- d1),
       Libm.exp m (- q * T) * (normal_cdf d1 - 1.0),
       - (S * Libm.exp m (- q * T) * pdfD1 * sigma) / (2.0 * sqrtT)
         + r * K * discount * normal_cdf (- d2)
         - q * S * Libm.exp m (- q * T) * normal_cdf (- d1),
       - K * T * discount * normal_cdf (- d2)) in
  let gamma := Libm.exp m (- q * T) * pdfD1 / (S * sigmaSqT) in
  let vega := S * Libm.exp m (- q * T) * pdfD1 * sqrtT in
  OptionGreeks.Build price delta gamma vega theta rho.

End WithLibm.

Module IvState.
Record t : Type := Build {
  low : float;
  high : float;
  mid : float;
  converged : bool;
  iteration : N
}.

Definition next_iteration (st : t) : t :=
  Build (low st) (high st) (mid st) (converged st) (iteration st + 1)%N.
End IvState.

Section BisectionLoop.

Variable price_at : float -> float.
Variables target_price tolerance : float.

(** One pass through the body of the [for] loop (lines 92-112). *)
Definition iv_body (st : IvState.t) : IvState.t * control :=
  let mid := 0.5 * (IvState.low st + IvState.high st) in
  let price := price_at mid in
  let diff := price - target_price in
  if abs diff <? tolerance then
    (IvState.Build (IvState.low st) (IvState.high st) mid true
                   (IvState.iteration st), Break)
  else
    let '(low, high) :=
      if 0.0 <? diff then (IvState.low st, mid)
      else (mid, IvState.high st) in
    if abs (high - low) <? tolerance then
      (IvState.Build low high mid true (IvState.iteration st), Break)
    else
      (IvState.Build low high mid (IvState.converged st)
                     (IvState.iteration st), Next).

Fixpoint iv_loop (remaining : nat) (st : IvState.t) : IvState.t :=
  match remaining with
  | O => st
  | S remaining' =>
      match iv_body st with
      | (st', Break) => st'
      | (st', Next) => iv_loop remaining' (IvState.next_iteration st')
      end
  end.

End BisectionLoop.

Definition iv_init (lower_bound upper_bound : float) : IvState.t :=
  IvState.Build lower_bound upper_bound 0.0 false 0%N.

Definition guess_price (m : Libm.t) (option : OptionInput.t) (mid : float)
  : float :=
  OptionGreeks.price
    (black_scholes m (OptionInput.with_volatility option mid)).

Definition implied_volatility (m : Libm.t) (option : OptionInput.t)
    (target_price lower_bound upper_bound tolerance : float)
    (max_iterations : N) : ImpliedVolatilityResult.t :=
  let st := iv_loop (guess_price m option) target_price tolerance
                    (N.to_nat max_iterations)
                    (iv_init lower_bound upper_bound) in
  ImpliedVolatilityResult.Build
    (IvState.mid st)
    (IvState.converged st)
    ((IvState.iteration st + 1) mod size_t_modulus)%N.

#[warnings="-inexact-float"]
Definition default_lower_bound : float := 1e-6.
Definition default_upper_bound : float := 5.0.
#[warnings="-inexact-float"]
Definition default_tolerance : float := 1e-6.
Definition default_max_iterations : N := 100.

(** ** [grpc_service.cpp]: the caller's clamp *)

#[warnings="-inexact-float"]
Definition sanitize_floor : float := 1e-6.

Definition sanitize_option (option : OptionInput.t) : OptionInput.t :=
  OptionInput.Build
    (std_max (OptionInput.spot option) sanitize_floor)
    (std_max (OptionInput.strike option) sanitize_floor)
    (OptionInput.rate option)
    (std_max (OptionInput.volatility option) sanitize_floor)
    (std_max (OptionInput.time_to_maturity option) sanitize_floor)
    (OptionInput.dividend_yield option)
    (OptionInput.is_call option).

(** ** [monte_carlo.cpp] *)

(** [<random>]: the state of [rng] together with [standard_normal], the
    seeding [std::mt19937 rng(seed)], and one draw [standard_normal(rng)]. *)
Module Rng.
Record t : Type := Build {
  state : Type;
  mt19937 : N -> state;
  standard_normal : state -> float * state
}.
End Rng.

(** [static_cast<double>(paths)] *)
Definition double_of_uint32 (n : N) : float :=
  of_uint63 (Uint63.of_Z (Z.of_N n)).

Section MonteCarlo.

Variable m : Libm.t.
Variable g : Rng.t.
Variable option : OptionInput.t.

Definition mc_drift : float :=
  (OptionInput.rate option - OptionInput.dividend_yield option
   - 0.5 * OptionInput.volatility option * OptionInput.volatility option)
  * OptionInput.time_to_maturity option.

Definition mc_diffusion : float :=
  OptionInput.volatility option * sqrt (OptionInput.time_to_maturity option).

Definition mc_discount : float :=
  Libm.exp m (- OptionInput.rate option * OptionInput.time_to_maturity option).

Definition mc_payoff (z : float) : float :=
  let terminal :=
    OptionInput.spot option * Libm.exp m (mc_drift + mc_diffusion * z) in
  if OptionInput.is_call option
  then std_max (terminal - OptionInput.strike option) 0.0
  else std_max (OptionInput.strike option - terminal) 0.0.

Record mc_state : Type := McState {
  mc_rng : Rng.state g;
  mc_payoffs : list float;
  mc_sum : float
}.

Definition mc_path (st : mc_state) : mc_state :=
  let '(z, rng') := Rng.standard_normal g (mc_rng st) in
  let payoff := mc_payoff z in
  McState rng' (mc_payoffs st ++ [payoff]) (mc_sum st + payoff).

Fixpoint mc_simulate (remaining : nat) (st : mc_state) : mc_state :=
  match remaining with
  | O => st
  | S remaining' => mc_simulate remaining' (mc_path st)
  end.

Definition mc_variance_sum (mean_payoff : float) (payoffs : list float)
  : float :=
  fold_left (fun variance_sum payoff =>
               let diff := payoff - mean_payoff in
               variance_sum + diff * diff)
            payoffs 0.0.

Definition monte_carlo_price (paths seed : N) : MonteCarloResult.t :=
  if (paths =? 0)%N then MonteCarloResult.Build 0.0 0.0
  else
    let st := mc_simulate (N.to_nat paths)
                          (McState (Rng.mt19937 g seed) [] 0.0) in
    let mean_payoff := mc_sum st / double_of_uint32 paths in
    let variance_sum := mc_variance_sum mean_payoff (mc_payoffs st) in
    let variance := variance_sum / double_of_uint32 paths in
    let stddev := sqrt variance in
    let standard_error := stddev / sqrt (double_of_uint32 paths) in
    MonteCarloResult.Build (mc_discount * mean_payoff)
                           (mc_discount * standard_error).

End MonteCarlo.

(** ** What the theorems use of the C library *)

(** The values that Annex F of the C standard fixes at the special
    arguments: a NaN argument gives NaN (F.10), [exp(+inf) = +inf],
    [exp(-inf) = +0] and [exp(-0) = 1] (F.10.3.1), [log(1) = +0] (F.10.3.7),
    [erfc(-inf) = 2] (F.10.5.2). *)
Record annex_f (m : Libm.t) : Prop := AnnexF {
  exp_nan : Libm.exp m nan = nan;
  exp_pos_inf : Libm.exp m infinity = infinity;
  exp_neg_inf : Libm.exp m neg_infinity = 0;
  exp_neg_zero : Libm.exp m neg_zero = 1;
  log_one : Libm.log m 1 = 0;
  erfc_nan : Libm.erfc m nan = nan;
  erfc_neg_inf : Libm.erfc m neg_infinity = 2
}.

(** [exp] returns no negative number. *)
Definition exp_never_negative (m : Libm.t) : Prop :=
  forall x, (Libm.exp m x <? 0) = false.

(** A library that is right at the special arguments and constant
    elsewhere: it shows that the assumptions above can be met. *)
Definition special_values : Libm.t :=
  Libm.Build
    (fun x => if is_nan x then nan
              else if x =? infinity then infinity
              else if x =? neg_infinity then 0
              else 1)
    (fun x => if is_nan x then nan else 0)
    (fun x => if is_nan x then nan
              else if x =? neg_infinity then 2
              else 1).

(** A generator whose every variate is zero. *)
Definition constant_normal : Rng.t :=
  Rng.Build unit (fun _ => tt) (fun rng => (0.0, rng)).

#[warnings="-inexact-float"]
Definition test_option (is_call : bool) : OptionInput.t :=
  OptionInput.Build 100.0 100.0 0.01 0.2 1.0 0.0 is_call.

(** ** The claims on binary64 *)

(** A clamped option specification. *)
Definition clamped (o : OptionInput.t) : bool :=
  (sanitize_floor <=? OptionInput.spot o)
  && (sanitize_floor <=? OptionInput.strike o)
  && (sanitize_floor <=? OptionInput.volatility o)
  && (sanitize_floor <=? OptionInput.time_to_maturity o).


#[warnings="-inexact-float"]
Definition parity_tolerance : float := 1e-5.

(** [lower_bound <= volatility <= upper_bound] *)
Definition within_bounds (lower_bound upper_bound volatility : float) : bool :=
  (lower_bound <=? volatility) && (volatility <=? upper_bound).

(** The request's field is NaN and passes through, or the sanitised field
    is at least [1e-6]. *)
Definition floored_or_nan (field sanitized : float) : Prop :=
  if is_nan field then sanitized = field
  else (sanitize_floor <=? sanitized) = true.



#[warnings="-inexact-float"]
Definition overflowing_drift : OptionInput.t :=
  OptionInput.Build 100.0 100.0 1e308 0.2 1e308 0.0 true.



(** Whether every run of the bisection from the bracket [[low, high]] stops
    by the width rule within [fuel] passes, with every midpoint on the way
    in [[lower_bound, upper_bound]].  The brackets that the loop can reach
    form a binary tree, one branch for [high = mid] and one for
    [low = mid]; the price decides the branch, so both are checked. *)
Fixpoint bracket_check (lower_bound upper_bound tolerance : float)
    (fuel : nat) (low high : float) : bool :=
  match fuel with
  | O => false
  | S fuel' =>
      let mid := 0.5 * (low + high) in
      if within_bounds lower_bound upper_bound mid then
        if (if abs (mid - low) <? tolerance then true
            else bracket_check lower_bound upper_bound tolerance fuel' low mid)
        then (if abs (high - mid) <? tolerance then true
              else bracket_check lower_bound upper_bound tolerance fuel'
                                 mid high)
        else false
      else false
  end.

End B64.

(** ** The sign of a binary64 number *)

Module Sign.
Import SpecFloat.

(** A number that is not negative: NaN, a zero of either sign, [+inf] or a
    positive number. *)
Definition SFnonneg (f : spec_float) : bool :=
  match f with
  | S754_nan | S754_zero _ => true
  | S754_infinity s | S754_finite s _ _ => negb s
  end.

(** A number whose sign bit is clear, or NaN. *)
Definition SFsign_clear (f : spec_float) : bool :=
  match f with
  | S754_nan => true
  | S754_zero s | S754_infinity s | S754_finite s _ _ => negb s
  end.

Definition sign_clear (x : PrimFloat.float) : Prop :=
  SFsign_clear (FloatOps.Prim2SF x) = true.
End Sign.

(* ================================================================== *)
(** * The specification's definitions *)
(* ================================================================== *)

(** The definitions of this part follow the text of the specification (or
    name a predicate that the theorems need); the theorems of the last part
    compare the functions above with them. *)

(** A clamped option specification: what [sanitize_option] returns. *)
Definition clamped (option : OptionInput.t) : Prop :=
  1e-6 <= OptionInput.spot option /\
  1e-6 <= OptionInput.strike option /\
  1e-6 <= OptionInput.volatility option /\
  1e-6 <= OptionInput.time_to_maturity option.


(** The tolerance of the parity check, and the tolerance within which the
    price is monotone in the volatility. *)
Definition parity_tolerance : R := 1e-5.


(** Two option specifications that differ at most in the call/put flag. *)
Definition same_contract (o1 o2 : OptionInput.t) : Prop :=
  OptionInput.spot o1 = OptionInput.spot o2 /\
  OptionInput.strike o1 = OptionInput.strike o2 /\
  OptionInput.rate o1 = OptionInput.rate o2 /\
  OptionInput.volatility o1 = OptionInput.volatility o2 /\
  OptionInput.time_to_maturity o1 = OptionInput.time_to_maturity o2 /\
  OptionInput.dividend_yield o1 = OptionInput.dividend_yield o2.

(** ** Section 4.1: the closed-form formulas *)

Module ClosedForm.
Section Formulas.
Variables S K r q sigma T : R.

Definition d1 : R :=
  (ln (S / K) + (r - q + 0.5 * sigma ^ 2) * T) / (sigma * sqrt T).
Definition d2 : R := d1 - sigma * sqrt T.

(** Standard normal density and distribution function. *)
Definition phi (x : R) : R := exp (- x ^ 2 / 2) / sqrt (2 * PI).
Definition Phi (x : R) : R := 0.5 * Cmath.erfc (- x / sqrt 2).

Definition call_price : R :=
  S * exp (- q * T) * Phi d1 - K * exp (- r * T) * Phi d2.
Definition call_delta : R := exp (- q * T) * Phi d1.
Definition call_theta : R :=
  - (S * exp (- q * T) * phi d1 * sigma) / (2 * sqrt T)
  - r * K * exp (- r * T) * Phi d2
  + q * S * exp (- q * T) * Phi d1.
Definition call_rho : R := K * T * exp (- r * T) * Phi d2.

Definition put_price : R :=
  K * exp (- r * T) * Phi (- d2) - S * exp (- q * T) * Phi (- d1).

Definition gamma : R :=
  exp (- q * T) * phi d1 / (S * sigma * sqrt T).
Definition vega : R := S * exp (- q * T) * phi d1 * sqrt T.
End Formulas.
End ClosedForm.

(** ** Section 4.2: the bisection *)

(** Steps 1 to 5 of the algorithm, as sequences indexed by the (0-based)
    iteration. *)
Module BisectionSpec.
Section Spec.
Variable price_at : R -> R.
Variables target_price tolerance lower_bound upper_bound : R.

(** Step 2: the midpoint of a bracket. *)
Definition mid_of (b : R * R) : R := (fst b + snd b) / 2.

(** Step 4: [high = mid] when the option is priced too high, else
    [low = mid]. *)
Definition narrow (b : R * R) : R * R :=
  if Rgt_dec (price_at (mid_of b) - target_price) 0
  then (fst b, mid_of b)
  else (mid_of b, snd b).

(** Step 1, then step 4 once per iteration: the bracket [(low, high)]
    with which iteration [k] starts. *)
Fixpoint bracket (k : nat) : R * R :=
  match k with
  | O => (lower_bound, upper_bound)
  | S j => narrow (bracket j)
  end.

(** The midpoint that iteration [k] computes. *)
Definition midpoint (k : nat) : R := mid_of (bracket k).

(** Step 3: the price at the midpoint is within tolerance of the target. *)
Definition price_rule (k : nat) : Prop :=
  Rabs (price_at (midpoint k) - target_price) < tolerance.

(** Step 5: the bracket, once narrowed, is narrower than the tolerance. *)
Definition width_rule (k : nat) : Prop :=
  Rabs (snd (bracket (S k)) - fst (bracket (S k))) < tolerance.

Definition stops (k : nat) : Prop := price_rule k \/ width_rule k.

(** A loop state that holds the bracket with which iteration [k] starts. *)
Definition starts_iteration (k : nat) (st : IvState.t) : Prop :=
  (IvState.low st, IvState.high st) = bracket k.
End Spec.
End BisectionSpec.

(** [lower_bound <= low <= mid <= high <= upper_bound] *)
Definition bracket_invariant (lower_bound upper_bound : R) (st : IvState.t)
  : Prop :=
  lower_bound <= IvState.low st /\
  IvState.low st <= IvState.mid st /\
  IvState.mid st <= IvState.high st /\
  IvState.high st <= upper_bound.

(** The same at the top of a pass, where [mid] is stale. *)
Definition bracket_ordered (lower_bound upper_bound : R) (st : IvState.t)
  : Prop :=
  lower_bound <= IvState.low st /\
  IvState.low st <= IvState.high st /\
  IvState.high st <= upper_bound.

(** Two states with the same [low], [high], [mid] and [converged]. *)
Definition same_variables (a b : IvState.t) : Prop :=
  IvState.low a = IvState.low b /\
  IvState.high a = IvState.high b /\
  IvState.mid a = IvState.mid b /\
  IvState.converged a = IvState.converged b.

(** ** Section 4.3: the estimators *)

Module EstimatorSpec.

Definition total (l : list R) : R := fold_right Rplus 0 l.

(** The mean of a sample: its total over its size. *)
Definition mean (l : list R) : R := total l / INR (length l).

(** The population variance of a sample: the mean of the squared deviations
    from the sample mean, with divisor the sample size (not one less). *)
Definition population_variance (l : list R) : R :=
  mean (map (fun x => (x - mean l) ^ 2) l).

(** The standard error of the sample mean: the square root of the variance
    over the square root of the sample size. *)
Definition standard_error (l : list R) : R :=
  sqrt (population_variance l) / sqrt (INR (length l)).

End EstimatorSpec.

Section Draws.
Variable rng_state : Type.
Variable standard_normal : rng_state -> R * rng_state.

(** Step 1: the variates drawn for [n] paths from a generator state, one per
    path, in order. *)
Fixpoint mc_draws (n : nat) (rng : rng_state) : list R :=
  match n with
  | O => []
  | S m => let '(z, rng') := standard_normal rng in z :: mc_draws m rng'
  end.

(** What the simulation loop maintains: [sum] is the total of [payoffs], and
    no payoff is negative. *)
Definition mc_invariant (st : McState.t rng_state) : Prop :=
  McState.sum st = EstimatorSpec.total (McState.payoffs st) /\
  Forall (fun x => 0 <= x) (McState.payoffs st).
End Draws.

(** A degenerate generator, every draw of which is [0]: an instance of the
    generator interface. *)
Definition constant_rng_seed (seed : N) : unit := tt.
Definition constant_rng_draw (rng : unit) : R * unit := (0, rng).

(** ** The price as a function of the total volatility *)

(** The call price in the total volatility [s = sigma * sqrt T], for a
    forward [F], a discounted strike [KD] and the log-moneyness
    [m = ln (F / KD)]. *)
Module TotalVolatility.
Section Price.
Variables F KD m : R.

Definition d1 (s : R) : R := m / s + s / 2.
Definition d2 (s : R) : R := m / s - s / 2.
Definition call (s : R) : R := F * normal_cdf (d1 s) - KD * normal_cdf (d2 s).
End Price.
End TotalVolatility.

(** The floored inputs with which [black_scholes] prices an option, and the
    forward, discounted strike and log-moneyness they give. *)
Definition floored_spot (o : OptionInput.t) : R :=
  std_max (OptionInput.spot o) eps.
Definition floored_strike (o : OptionInput.t) : R :=
  std_max (OptionInput.strike o) eps.
Definition floored_maturity (o : OptionInput.t) : R :=
  std_max (OptionInput.time_to_maturity o) eps.

Definition bs_forward (o : OptionInput.t) : R :=
  floored_spot o * exp (- OptionInput.dividend_yield o * floored_maturity o).
Definition bs_discounted_strike (o : OptionInput.t) : R :=
  floored_strike o * exp (- OptionInput.rate o * floored_maturity o).
Definition bs_moneyness (o : OptionInput.t) : R :=
  ln (floored_spot o / floored_strike o)
  + (OptionInput.rate o - OptionInput.dividend_yield o) * floored_maturity o.

(** ** Further definitions for the properties of [black_scholes] *)

(** An option specification with its spot, strike, volatility and maturity
    floored at the [eps] of [black_scholes]. *)
Definition floor_at_eps (o : OptionInput.t) : OptionInput.t :=
  OptionInput.Build
    (std_max (OptionInput.spot o) eps)
    (std_max (OptionInput.strike o) eps)
    (OptionInput.rate o)
    (std_max (OptionInput.volatility o) eps)
    (std_max (OptionInput.time_to_maturity o) eps)
    (OptionInput.dividend_yield o)
    (OptionInput.is_call o).

(** ** Definitions for the derivatives of [black_scholes] *)

(** An option specification with its spot, or its rate, replaced. *)
Definition with_spot (o : OptionInput.t) (spot : R) : OptionInput.t :=
  OptionInput.Build spot (OptionInput.strike o) (OptionInput.rate o)
    (OptionInput.volatility o) (OptionInput.time_to_maturity o)
    (OptionInput.dividend_yield o) (OptionInput.is_call o).

Definition with_rate (o : OptionInput.t) (rate : R) : OptionInput.t :=
  OptionInput.Build (OptionInput.spot o) (OptionInput.strike o) rate
    (OptionInput.volatility o) (OptionInput.time_to_maturity o)
    (OptionInput.dividend_yield o) (OptionInput.is_call o).

(** The price and the delta that [black_scholes] returns, as functions of
    the spot, and the price as a function of the rate. *)
Definition price_of_spot (o : OptionInput.t) (spot : R) : R :=
  OptionGreeks.price (black_scholes (with_spot o spot)).
Definition delta_of_spot (o : OptionInput.t) (spot : R) : R :=
  OptionGreeks.delta (black_scholes (with_spot o spot)).
Definition price_of_rate (o : OptionInput.t) (rate : R) : R :=
  OptionGreeks.price (black_scholes (with_rate o rate)).

(** An option specification with its time to maturity replaced, and the
    price and the theta that [black_scholes] returns as functions of it. *)
Definition with_maturity (o : OptionInput.t) (maturity : R) : OptionInput.t :=
  OptionInput.Build (OptionInput.spot o) (OptionInput.strike o)
    (OptionInput.rate o) (OptionInput.volatility o) maturity
    (OptionInput.dividend_yield o) (OptionInput.is_call o).

Definition price_of_maturity (o : OptionInput.t) (maturity : R) : R :=
  OptionGreeks.price (black_scholes (with_maturity o maturity)).
Definition theta_of_maturity (o : OptionInput.t) (maturity : R) : R :=
  OptionGreeks.theta (black_scholes (with_maturity o maturity)).

(* ================================================================== *)
(** * Theorems *)
(* ================================================================== *)

(** ** The constants *)

(** The literal of the source agrees with [sqrt 2] to twenty digits. *)
Lemma kSqrtTwo_literal : Rabs (kSqrtTwo - 1.41421356237309504880) < 1e-19.
Proof.
  unfold kSqrtTwo.
  assert (Hs : sqrt 2 * sqrt 2 = 2) by (apply sqrt_sqrt; lra).
  assert (Hp : 0 < sqrt 2) by (apply sqrt_lt_R0; lra).
  set (s := sqrt 2) in *.
  apply Rabs_def1; apply Rnot_le_lt; intros H.
  - assert ((1.41421356237309504880 + 1e-19)
            * (1.41421356237309504880 + 1e-19) <= s * s)
      by (apply Rmult_le_compat; lra).
    lra.
  - assert (s * s <= (1.41421356237309504880 - 1e-19)
                     * (1.41421356237309504880 - 1e-19))
      by (apply Rmult_le_compat; lra).
    lra.
Qed.

(** Twenty digits of [PI], from the series of [2 atan (1/3) + atan (1/7)]. *)
Lemma PI_digits : 3.14159265358979323846 < PI < 3.14159265358979323847.
Proof.
  pose proof (PI_2_3_7_ineq 11) as H.
  unfold sum_f_R0, tg_alt, PI_2_3_7_tg, Ratan_seq in H.
  simpl in H. lra.
Qed.

(** The literal of the source agrees with [1 / sqrt (2 pi)] to twenty
    digits. *)
Lemma kInvSqrtTwoPi_literal :
  Rabs (kInvSqrtTwoPi - 0.39894228040143267794) < 1e-19.
Proof.
  unfold kInvSqrtTwoPi.
  pose proof PI_digits as Hpi.
  assert (Hs : sqrt (2 * PI) * sqrt (2 * PI) = 2 * PI)
    by (apply sqrt_sqrt; lra).
  assert (Hp : 0 < sqrt (2 * PI)) by (apply sqrt_lt_R0; lra).
  set (s := sqrt (2 * PI)) in *.
  assert (Hi : 0 < / s) by (apply Rinv_0_lt_compat, Hp).
  assert (Hii : / s * / s * (2 * PI) = 1) by (rewrite <- Hs; field; lra).
  set (u := / s) in *.
  apply Rabs_def1; apply Rnot_le_lt; intros H.
  - assert ((0.39894228040143267794 + 1e-19)
            * (0.39894228040143267794 + 1e-19) <= u * u)
      by (apply Rmult_le_compat; lra).
    assert (1 < (0.39894228040143267794 + 1e-19)
                * (0.39894228040143267794 + 1e-19)
                * (2 * 3.14159265358979323846)) by lra.
    nra.
  - assert (u * u <= (0.39894228040143267794 - 1e-19)
                     * (0.39894228040143267794 - 1e-19))
      by (apply Rmult_le_compat; lra).
    assert ((0.39894228040143267794 - 1e-19)
            * (0.39894228040143267794 - 1e-19)
            * (2 * 3.14159265358979323847) < 1) by lra.
    nra.
Qed.

(** In binary64 the two literals are the values that the formulas they
    stand for evaluate to: [sqrt(2.0)] and [1.0 / sqrt(2.0 * M_PI)]. *)
Module Binary64Facts.
Import PrimFloat.

Lemma kSqrtTwo_binary64 : sqrt 2%float = Binary64.kSqrtTwo.
Proof. vm_compute. reflexivity. Qed.

Lemma kInvSqrtTwoPi_binary64 :
  (1 / sqrt (2 * Binary64.pi))%float = Binary64.kInvSqrtTwoPi.
Proof. vm_compute. reflexivity. Qed.

End Binary64Facts.

(* ================================================================== *)
(** * Properties of the error function *)
(* ================================================================== *)

Module CmathFacts.
Import Cmath.

(** A derivative may be read off any function that agrees pointwise, with
    any value equal to the computed one. *)
Lemma derivable_pt_lim_eq (f g : R -> R) (x l l' : R) :
  derivable_pt_lim f x l -> (forall z, f z = g z) -> l = l' ->
  derivable_pt_lim g x l'.
Proof.
  intros Hf Hfg <-. exact (derivable_pt_lim_ext f g x l Hfg Hf).
Qed.

Lemma gauss_int_0 : gauss_int 0 = 0.
Proof. unfold gauss_int. apply RiemannInt_P9. Qed.

(** Fundamental theorem of calculus for [gauss_int], at every point. *)
Lemma gauss_int_derivable (x : R) : derivable_pt_lim gauss_int x (gauss x).
Proof.
  set (a := - (Rabs x + 1)). set (b := Rabs x + 1).
  assert (Hx : a < x < b).
  { unfold a, b. unfold Rabs. destruct (Rcase_abs x); lra. }
  assert (h : a <= b) by lra.
  assert (C0 : forall y, a <= y <= b -> continuity_pt gauss y)
    by (intros; apply gauss_continuity).
  pose proof (RiemannInt_P27 h C0 Hx) as HP.
  set (P := primitive h (FTC_P1 h C0)) in HP.
  set (c := RiemannInt (gauss_integrable a 0)).
  assert (HPc : derivable_pt_lim (P - fct_cte c)%F x (gauss x)).
  { replace (gauss x) with (gauss x - 0) by ring.
    apply derivable_pt_lim_minus; [exact HP | apply derivable_pt_lim_const]. }
  apply (derivable_pt_lim_locally_ext (P - fct_cte c)%F gauss_int x a b);
    [exact Hx | | exact HPc].
  intros z Hz. unfold minus_fct, fct_cte, P, primitive.
  destruct (Rle_dec a z) as [Haz | Haz]; [ | lra].
  destruct (Rle_dec z b) as [Hzb | Hzb]; [ | lra].
  unfold gauss_int, c.
  rewrite <- (RiemannInt_P26 (gauss_integrable a 0) (gauss_integrable 0 z)
                             (FTC_P1 h C0 Haz Hzb)).
  ring.
Qed.

Lemma gauss_even (t : R) : gauss (- t) = gauss t.
Proof. unfold gauss. f_equal. ring. Qed.

(** [gauss_int] is odd: the sum [gauss_int x + gauss_int (- x)] has a null
    derivative and vanishes at [0]. *)
Lemma gauss_int_odd (x : R) : gauss_int (- x) = - gauss_int x.
Proof.
  set (f := fun z => gauss_int z + gauss_int (- z)).
  assert (Hd : forall z, derivable_pt_lim f z 0).
  { intro z.
    apply (derivable_pt_lim_eq (gauss_int + comp gauss_int (- id))%F f z
             (gauss z + gauss (- z) * (- 1))).
    - apply derivable_pt_lim_plus; [apply gauss_int_derivable | ].
      apply derivable_pt_lim_comp.
      + apply derivable_pt_lim_opp, derivable_pt_lim_id.
      + apply gauss_int_derivable.
    - intros; reflexivity.
    - rewrite gauss_even. ring. }
  assert (pr : derivable f) by (intro z; exists 0; apply Hd).
  assert (Hc : constant f).
  { apply (null_derivative_1 f pr). intro z. apply derive_pt_eq_0, Hd. }
  specialize (Hc x 0). unfold f in Hc.
  rewrite Ropp_0, gauss_int_0 in Hc. lra.
Qed.

Lemma erf_odd (x : R) : erf (- x) = - erf x.
Proof. unfold erf. rewrite gauss_int_odd. ring. Qed.

Lemma erfc_opp (x : R) : erfc (- x) = 2 - erfc x.
Proof. unfold erfc. rewrite erf_odd. ring. Qed.

Lemma erfc_0 : erfc 0 = 1.
Proof. unfold erfc, erf. rewrite gauss_int_0. ring. Qed.

Lemma erfc_derivable (x : R) :
  derivable_pt_lim erfc x (- (2 / sqrt PI * gauss x)).
Proof.
  apply (derivable_pt_lim_eq
           (fct_cte 1 - mult_real_fct (2 / sqrt PI) gauss_int)%F erfc x
           (0 - 2 / sqrt PI * gauss x)).
  - apply derivable_pt_lim_minus; [apply derivable_pt_lim_const | ].
    apply derivable_pt_lim_scal, gauss_int_derivable.
  - intros; reflexivity.
  - ring.
Qed.

End CmathFacts.

(* ================================================================== *)
(** * black_scholes *)
(* ================================================================== *)

Lemma Rdiv_nonneg (a b : R) : 0 <= a -> 0 < b -> 0 <= a / b.
Proof.
  intros Ha Hb. unfold Rdiv. apply Rmult_le_pos; [exact Ha | ].
  left. apply Rinv_0_lt_compat, Hb.
Qed.

Lemma std_max_left (a b : R) : b <= a -> std_max a b = a.
Proof. intros H. unfold std_max. destruct (Rlt_dec a b); [lra | reflexivity]. Qed.

Lemma std_max_right (a b : R) : a <= b -> std_max a b = b.
Proof. intros H. unfold std_max. destruct (Rlt_dec a b); [reflexivity | lra]. Qed.

Lemma std_max_ge_left (a b : R) : a <= std_max a b.
Proof. unfold std_max. destruct (Rlt_dec a b); lra. Qed.

Lemma std_max_ge_right (a b : R) : b <= std_max a b.
Proof. unfold std_max. destruct (Rlt_dec a b); lra. Qed.

Lemma std_max_Rmax (a b : R) : std_max a b = Rmax a b.
Proof.
  unfold std_max, Rmax.
  destruct (Rlt_dec a b), (Rle_dec a b); lra.
Qed.

Lemma eps_pos : 0 < eps.
Proof. unfold eps. lra. Qed.

(** The floor of [black_scholes] changes nothing on a value the caller has
    floored at [1e-6]. *)
Lemma std_max_eps_clamped (a : R) : 1e-6 <= a -> std_max a eps = a.
Proof. intros H. apply std_max_left. unfold eps. lra. Qed.

Lemma normal_pdf_phi (x : R) : normal_pdf x = ClosedForm.phi x.
Proof.
  unfold normal_pdf, ClosedForm.phi, kInvSqrtTwoPi.
  replace (- x ^ 2 / 2) with (-0.5 * x * x) by (simpl; lra).
  unfold Rdiv. ring.
Qed.

Lemma normal_cdf_Phi (x : R) : normal_cdf x = ClosedForm.Phi x.
Proof. reflexivity. Qed.

Lemma normal_cdf_opp (x : R) : normal_cdf (- x) = 1 - normal_cdf x.
Proof.
  unfold normal_cdf.
  replace (- - x / kSqrtTwo) with (- (- x / kSqrtTwo)) by (unfold Rdiv; ring).
  rewrite CmathFacts.erfc_opp. lra.
Qed.

Lemma test_option_clamped (b : bool) : clamped (test_option b).
Proof. unfold clamped, test_option; simpl. lra. Qed.

(** Unfolds [black_scholes] and the projections applied to its result. *)
Ltac bs_unfold :=
  unfold black_scholes;
  cbn [OptionInput.spot OptionInput.strike OptionInput.rate
       OptionInput.volatility OptionInput.time_to_maturity
       OptionInput.dividend_yield OptionInput.is_call
       OptionInput.with_volatility OptionInput.with_is_call
       OptionGreeks.price OptionGreeks.delta OptionGreeks.gamma
       OptionGreeks.vega OptionGreeks.theta OptionGreeks.rho].

(** C3.  For a clamped option specification whose call flag is set,
    [black_scholes] returns the closed-form call values: with
    [d1 = (ln(S/K) + (r - q + 0.5 sigma^2) T) / (sigma sqrt T)],
    [d2 = d1 - sigma sqrt T] and [Phi x = 0.5 erfc(- x / sqrt 2)], the price
    is [S e^(-qT) Phi(d1) - K e^(-rT) Phi(d2)], delta is [e^(-qT) Phi(d1)],
    theta is [- (S e^(-qT) phi(d1) sigma) / (2 sqrt T) - r K e^(-rT) Phi(d2)
    + q S e^(-qT) Phi(d1)] and rho is [K T e^(-rT) Phi(d2)]. *)
Theorem black_scholes_call_closed_form (option : OptionInput.t) :
  clamped option ->
  OptionInput.is_call option = true ->
  let S := OptionInput.spot option in
  let K := OptionInput.strike option in
  let r := OptionInput.rate option in
  let q := OptionInput.dividend_yield option in
  let sigma := OptionInput.volatility option in
  let T := OptionInput.time_to_maturity option in
  let g := black_scholes option in
  OptionGreeks.price g = ClosedForm.call_price S K r q sigma T /\
  OptionGreeks.delta g = ClosedForm.call_delta S K r q sigma T /\
  OptionGreeks.theta g = ClosedForm.call_theta S K r q sigma T /\
  OptionGreeks.rho g = ClosedForm.call_rho S K r q sigma T.
Proof.
  intros (HS & HK & Hsigma & HT) Hcall.
  destruct option as [S K r sigma T q c]; simpl in *; subst c.
  bs_unfold.
  rewrite !std_max_eps_clamped by assumption.
  unfold ClosedForm.call_price, ClosedForm.call_delta, ClosedForm.call_theta,
    ClosedForm.call_rho, ClosedForm.d2, ClosedForm.d1.
  rewrite !normal_pdf_phi.
  change normal_cdf with ClosedForm.Phi.
  replace (0.5 * sigma * sigma) with (0.5 * sigma ^ 2) by (simpl; ring).
  replace (2.0 * sqrt T) with (2 * sqrt T) by lra.
  repeat split; reflexivity.
Qed.

Lemma black_scholes_call_closed_form_witness :
  clamped (test_option true) /\
  let g := black_scholes (test_option true) in
  OptionGreeks.price g = ClosedForm.call_price 100.0 100.0 0.01 0.0 0.2 1.0 /\
  OptionGreeks.delta g = ClosedForm.call_delta 100.0 100.0 0.01 0.0 0.2 1.0 /\
  OptionGreeks.theta g = ClosedForm.call_theta 100.0 100.0 0.01 0.0 0.2 1.0 /\
  OptionGreeks.rho g = ClosedForm.call_rho 100.0 100.0 0.01 0.0 0.2 1.0.
Proof.
  assert (H : clamped (test_option true))
    by (unfold clamped, test_option; simpl; lra).
  split; [exact H | ].
  exact (black_scholes_call_closed_form (test_option true) H eq_refl).
Defined.

(** [gamma] and [vega] are computed after the branch, from values the branch
    does not touch: they do not depend on the flag, clamped or not. *)
Lemma black_scholes_gamma_vega_flag (o : OptionInput.t) (b1 b2 : bool) :
  OptionGreeks.gamma (black_scholes (OptionInput.with_is_call o b1)) =
  OptionGreeks.gamma (black_scholes (OptionInput.with_is_call o b2)) /\
  OptionGreeks.vega (black_scholes (OptionInput.with_is_call o b1)) =
  OptionGreeks.vega (black_scholes (OptionInput.with_is_call o b2)).
Proof. destruct o, b1, b2; split; reflexivity. Qed.

(** C7.  Two clamped option specifications that are identical except for the
    call/put flag get the same gamma and the same vega from [black_scholes]:
    [gamma = e^(-qT) phi(d1) / (S sigma sqrt T)] and
    [vega = S e^(-qT) phi(d1) sqrt T], whichever branch is taken. *)
Theorem black_scholes_gamma_vega_branch_independent (o1 o2 : OptionInput.t) :
  same_contract o1 o2 ->
  clamped o1 ->
  let S := OptionInput.spot o1 in
  let K := OptionInput.strike o1 in
  let r := OptionInput.rate o1 in
  let q := OptionInput.dividend_yield o1 in
  let sigma := OptionInput.volatility o1 in
  let T := OptionInput.time_to_maturity o1 in
  OptionGreeks.gamma (black_scholes o1) = ClosedForm.gamma S K r q sigma T /\
  OptionGreeks.gamma (black_scholes o2) = ClosedForm.gamma S K r q sigma T /\
  OptionGreeks.vega (black_scholes o1) = ClosedForm.vega S K r q sigma T /\
  OptionGreeks.vega (black_scholes o2) = ClosedForm.vega S K r q sigma T.
Proof.
  intros (ES & EK & Er & Esigma & ET & Eq) (HS & HK & Hsigma & HT).
  destruct o1 as [S K r sigma T q c1], o2 as [S2 K2 r2 sigma2 T2 q2 c2].
  simpl in *; subst S2 K2 r2 sigma2 T2 q2.
  bs_unfold.
  rewrite !std_max_eps_clamped by assumption.
  unfold ClosedForm.gamma, ClosedForm.vega, ClosedForm.d1.
  rewrite !normal_pdf_phi.
  replace (0.5 * sigma * sigma) with (0.5 * sigma ^ 2) by (simpl; ring).
  replace (S * (sigma * sqrt T)) with (S * sigma * sqrt T) by ring.
  destruct c1, c2; repeat split; reflexivity.
Qed.

Lemma black_scholes_gamma_vega_branch_independent_witness :
  same_contract (test_option true) (test_option false) /\
  clamped (test_option true) /\
  OptionGreeks.gamma (black_scholes (test_option true)) =
    ClosedForm.gamma 100.0 100.0 0.01 0.0 0.2 1.0 /\
  OptionGreeks.gamma (black_scholes (test_option false)) =
    ClosedForm.gamma 100.0 100.0 0.01 0.0 0.2 1.0 /\
  OptionGreeks.vega (black_scholes (test_option true)) =
    ClosedForm.vega 100.0 100.0 0.01 0.0 0.2 1.0 /\
  OptionGreeks.vega (black_scholes (test_option false)) =
    ClosedForm.vega 100.0 100.0 0.01 0.0 0.2 1.0.
Proof.
  assert (Hs : same_contract (test_option true) (test_option false))
    by (unfold same_contract; simpl; repeat split; reflexivity).
  assert (Hc : clamped (test_option true))
    by (unfold clamped, test_option; simpl; lra).
  split; [exact Hs | split; [exact Hc | ]].
  exact (black_scholes_gamma_vega_branch_independent
           (test_option true) (test_option false) Hs Hc).
Defined.

(** The put price in closed form, for a clamped specification whose flag is
    not set. *)
Lemma black_scholes_put_price (option : OptionInput.t) :
  clamped option ->
  OptionInput.is_call option = false ->
  OptionGreeks.price (black_scholes option) =
  ClosedForm.put_price (OptionInput.spot option) (OptionInput.strike option)
    (OptionInput.rate option) (OptionInput.dividend_yield option)
    (OptionInput.volatility option) (OptionInput.time_to_maturity option).
Proof.
  intros (HS & HK & Hsigma & HT) Hput.
  destruct option as [S K r sigma T q c]; simpl in *; subst c.
  bs_unfold.
  rewrite !std_max_eps_clamped by assumption.
  unfold ClosedForm.put_price, ClosedForm.d2, ClosedForm.d1.
  change normal_cdf with ClosedForm.Phi.
  replace (0.5 * sigma * sigma) with (0.5 * sigma ^ 2) by (simpl; ring).
  reflexivity.
Qed.





(* ================================================================== *)
(** * implied_volatility *)
(* ================================================================== *)

Section BisectionFacts.

Variable price_at : R -> R.
Variables target_price tolerance lower_bound upper_bound : R.

Local Abbreviation body := (iv_body price_at target_price tolerance).
Local Abbreviation loop := (iv_loop price_at target_price tolerance).
Local Abbreviation passes := (iv_passes price_at target_price tolerance).
Local Abbreviation trace := (iv_trace price_at target_price tolerance).
Local Abbreviation bracket :=
  (BisectionSpec.bracket price_at target_price lower_bound upper_bound).
Local Abbreviation midpoint :=
  (BisectionSpec.midpoint price_at target_price lower_bound upper_bound).
Local Abbreviation price_rule :=
  (BisectionSpec.price_rule price_at target_price tolerance
                            lower_bound upper_bound).
Local Abbreviation width_rule :=
  (BisectionSpec.width_rule price_at target_price tolerance
                            lower_bound upper_bound).
Local Abbreviation at_iteration :=
(BisectionSpec.starts_iteration price_at target_price lower_bound upper_bound).
Local Abbreviation stops :=
  (BisectionSpec.stops price_at target_price tolerance
                       lower_bound upper_bound).

Lemma half_sum (a b : R) : 0.5 * (a + b) = (a + b) / 2.
Proof. lra. Qed.

(** The three ways through the loop body, in the specification's terms. *)
Lemma iv_body_cases (k : nat) (st : IvState.t) :
  at_iteration k st ->
  (price_rule k /\
   body st = (IvState.Build (IvState.low st) (IvState.high st) (midpoint k)
                            true (IvState.iteration st), Break))
  \/
  (~ price_rule k /\ width_rule k /\
   body st = (IvState.Build (fst (bracket (S k))) (snd (bracket (S k)))
                            (midpoint k) true (IvState.iteration st), Break))
  \/
  (~ price_rule k /\ ~ width_rule k /\
   body st = (IvState.Build (fst (bracket (S k))) (snd (bracket (S k)))
                            (midpoint k) (IvState.converged st)
                            (IvState.iteration st), Next)).
Proof.
  intros Hk. unfold BisectionSpec.starts_iteration in Hk.
  assert (Hmid : 0.5 * (IvState.low st + IvState.high st) = midpoint k).
  { unfold BisectionSpec.midpoint, BisectionSpec.mid_of.
    rewrite <- Hk; simpl. apply half_sum. }
  unfold iv_body. rewrite Hmid.
  unfold BisectionSpec.price_rule, BisectionSpec.width_rule.
  destruct (Rlt_dec (Rabs (price_at (midpoint k) - target_price)) tolerance)
    as [Hp | Hp]; [left; split; [exact Hp | reflexivity] | right].
  assert (Hn : (if Rgt_dec (price_at (midpoint k) - target_price) 0.0
                then (IvState.low st, midpoint k)
                else (midpoint k, IvState.high st)) = bracket (S k)).
  { simpl. unfold BisectionSpec.narrow.
    fold (midpoint k). rewrite <- Hk; simpl.
    destruct (Rgt_dec (price_at (midpoint k) - target_price) 0.0),
             (Rgt_dec (price_at (midpoint k) - target_price) 0);
      try reflexivity; lra. }
  rewrite Hn. destruct (bracket (S k)) as [lo hi] eqn:Eb. cbn [fst snd].
  destruct (Rlt_dec (Rabs (hi - lo)) tolerance) as [Hw | Hw].
  - left. repeat split; assumption.
  - right. repeat split; assumption.
Qed.

(** What [iv_loop] does from a state that starts iteration [k] with [n]
    passes left: either some iteration [i] among the next [n] is the first
    to meet a stopping rule, and the loop breaks there with [mid] the
    midpoint of iteration [i]; or none does, and the loop runs all [n]
    passes. *)
Lemma iv_loop_refines (n : nat) :
  forall (k : nat) (st : IvState.t),
    at_iteration k st ->
    IvState.converged st = false ->
    (forall j, (j < k)%nat -> ~ stops j) ->
    (exists i, (k <= i < k + n)%nat /\ stops i /\
               (forall j, (j < i)%nat -> ~ stops j) /\
               IvState.converged (loop n st) = true /\
               IvState.mid (loop n st) = midpoint i /\
               IvState.iteration (loop n st)
                 = (IvState.iteration st + N.of_nat (i - k))%N /\
               passes n st = S (i - k))
    \/
    ((forall j, (j < k + n)%nat -> ~ stops j) /\
     IvState.converged (loop n st) = false /\
     IvState.iteration (loop n st) = (IvState.iteration st + N.of_nat n)%N /\
     passes n st = n /\
     match n with
     | O => loop n st = st
     | S m => IvState.mid (loop n st) = midpoint (k + m)
     end).
Proof.
  induction n as [ | m IH]; intros k st Hk Hconv Hbefore.
  - right. rewrite Nat.add_0_r, N.add_0_r. repeat split; auto.
  - cbn [iv_loop iv_passes].
    destruct (iv_body_cases k st Hk)
      as [(Hp & Hb) | [(Hp & Hw & Hb) | (Hp & Hw & Hb)]]; rewrite Hb.
    + left. exists k. rewrite Nat.sub_diag, N.add_0_r.
      repeat split; auto; try lia. left; exact Hp.
    + left. exists k. rewrite Nat.sub_diag, N.add_0_r.
      repeat split; auto; try lia. right; exact Hw.
    + set (st' := IvState.next_iteration _).
      assert (Hk' : at_iteration (S k) st').
      { unfold BisectionSpec.starts_iteration, st'; cbn [IvState.next_iteration IvState.low IvState.high].
        symmetry; apply surjective_pairing. }
      assert (Hconv' : IvState.converged st' = false) by exact Hconv.
      assert (Hbefore' : forall j, (j < S k)%nat -> ~ stops j).
      { intros j Hj. destruct (Nat.eq_dec j k) as [-> | Hne].
        - intros [H | H]; contradiction.
        - apply Hbefore; lia. }
      assert (Hit : IvState.iteration st' = (IvState.iteration st + 1)%N)
        by reflexivity.
      destruct (IH (S k) st' Hk' Hconv' Hbefore')
        as [(i & Hi & Hstop & Hfirst & Hc & Hmid & Hiter & Hpass)
           | (Hnone & Hc & Hiter & Hpass & Hlast)].
      * left. exists i. rewrite Hiter, Hit, Hpass.
        repeat split; auto; lia.
      * right. split; [ | split; [ | split; [ | split]]].
        -- intros j Hj. apply Hnone. lia.
        -- exact Hc.
        -- rewrite Hiter, Hit. lia.
        -- rewrite Hpass. reflexivity.
        -- destruct m as [ | m'].
           ++ rewrite Hlast. rewrite Nat.add_0_r. reflexivity.
           ++ rewrite Hlast. f_equal. lia.
Qed.

End BisectionFacts.


(** The run of [implied_volatility] in the specification's terms: from
    [iv_loop_refines] at the initial state. *)
Lemma implied_volatility_run
    (option : OptionInput.t) (target_price : R)
    (lower_bound upper_bound tolerance : R) (max_iterations : N) :
  let result := implied_volatility option target_price lower_bound
                                   upper_bound tolerance max_iterations in
  let executed := executed_iterations option target_price lower_bound
                                      upper_bound tolerance max_iterations in
  let stops := BisectionSpec.stops (guess_price option) target_price
                                   tolerance lower_bound upper_bound in
  let midpoint := BisectionSpec.midpoint (guess_price option) target_price
                                         lower_bound upper_bound in
  (exists i, (i < N.to_nat max_iterations)%nat /\ stops i /\
             (forall j, (j < i)%nat -> ~ stops j) /\
             ImpliedVolatilityResult.converged result = true /\
             ImpliedVolatilityResult.implied_volatility result = midpoint i /\
             ImpliedVolatilityResult.iterations result
               = ((N.of_nat i + 1) mod size_t_modulus)%N /\
             executed = S i)
  \/
  ((forall j, (j < N.to_nat max_iterations)%nat -> ~ stops j) /\
   ImpliedVolatilityResult.converged result = false /\
   ImpliedVolatilityResult.implied_volatility result =
     match N.to_nat max_iterations with
     | O => 0.0
     | S m => midpoint m
     end /\
   ImpliedVolatilityResult.iterations result
     = ((max_iterations + 1) mod size_t_modulus)%N /\
   executed = N.to_nat max_iterations).
Proof.
  cbv zeta. unfold implied_volatility, executed_iterations.
  cbn [ImpliedVolatilityResult.converged ImpliedVolatilityResult.iterations
       ImpliedVolatilityResult.implied_volatility].
  destruct (iv_loop_refines (guess_price option) target_price tolerance
              lower_bound upper_bound (N.to_nat max_iterations) 0
              (iv_init lower_bound upper_bound))
    as [(i & Hi & Hstop & Hfirst & Hc & Hmid & Hiter & Hpass)
       | (Hnone & Hc & Hiter & Hpass & Hlast)].
  - reflexivity.
  - reflexivity.
  - intros j Hj; lia.
  - left. exists i. rewrite Hiter, Hpass. cbn [iv_init IvState.iteration].
    rewrite Nat.sub_0_r, N.add_0_l.
    repeat split; auto; lia.
  - right. rewrite Hiter, Hpass. cbn [iv_init IvState.iteration].
    rewrite N.add_0_l, N2Nat.id.
    repeat split; auto.
    destruct (N.to_nat max_iterations) as [ | m].
    + rewrite Hlast. reflexivity.
    + exact Hlast.
Qed.

(** C1.  [implied_volatility] runs the bisection of the specification.  With
    [midpoint i] the value [(low + high) / 2] of iteration [i] and [stops i]
    the disjunction of the two stopping rules (the price at the midpoint is
    within [tolerance] of the target, or the narrowed bracket is narrower
    than [tolerance]), the solver returns [converged = true] and the midpoint
    of the first iteration below [max_iterations] at which a rule holds; it
    returns [converged = false] exactly when no iteration below
    [max_iterations] meets either rule, and then the value is the last
    midpoint computed (the initial [0.0] when [max_iterations] is [0] and
    none was). *)
Theorem implied_volatility_bisection
    (option : OptionInput.t) (target_price : R)
    (lower_bound upper_bound tolerance : R) (max_iterations : N) :
  let result := implied_volatility option target_price lower_bound
                                   upper_bound tolerance max_iterations in
  let stops := BisectionSpec.stops (guess_price option) target_price
                                   tolerance lower_bound upper_bound in
  let midpoint := BisectionSpec.midpoint (guess_price option) target_price
                                         lower_bound upper_bound in
  (ImpliedVolatilityResult.converged result = true /\
   exists i, (i < N.to_nat max_iterations)%nat /\ stops i /\
             (forall j, (j < i)%nat -> ~ stops j) /\
             ImpliedVolatilityResult.implied_volatility result = midpoint i)
  \/
  (ImpliedVolatilityResult.converged result = false /\
   (forall j, (j < N.to_nat max_iterations)%nat -> ~ stops j) /\
   ImpliedVolatilityResult.implied_volatility result =
     match N.to_nat max_iterations with
     | O => 0.0
     | S m => midpoint m
     end).
Proof.
  cbv zeta.
  destruct (implied_volatility_run option target_price lower_bound
              upper_bound tolerance max_iterations)
    as [(i & Hi & Hstop & Hfirst & Hc & Hmid & _)
       | (Hnone & Hc & Hlast & _)].
  - left. split; [exact Hc | ]. exists i. repeat split; assumption.
  - right. repeat split; assumption.
Qed.

(** ** The reported iteration count *)

(** X4.  When the solver converges, [iterations] is the number of passes it
    made through the loop body, which is at least one and at most
    [max_iterations]. *)
Lemma implied_volatility_iterations_converged
    (option : OptionInput.t) (target_price : R)
    (lower_bound upper_bound tolerance : R) (max_iterations : N) :
  let result := implied_volatility option target_price lower_bound
                                   upper_bound tolerance max_iterations in
  let executed := executed_iterations option target_price lower_bound
                                      upper_bound tolerance max_iterations in
  (max_iterations < size_t_modulus)%N ->
  ImpliedVolatilityResult.converged result = true ->
  ImpliedVolatilityResult.iterations result = N.of_nat executed /\
  (1 <= executed <= N.to_nat max_iterations)%nat.
Proof.
  cbv zeta. intros Hmax Hconv.
  destruct (implied_volatility_run option target_price lower_bound
              upper_bound tolerance max_iterations)
    as [(i & Hi & _ & _ & _ & _ & Hiter & Hexec) | (_ & Hc & _)];
    [ | congruence].
  rewrite Hiter, Hexec. split; [ | lia].
  rewrite N.mod_small; lia.
Qed.

(** When the solver does not converge, it has made [max_iterations] passes
    and reports one more. *)
Lemma implied_volatility_iterations_exhausted
    (option : OptionInput.t) (target_price : R)
    (lower_bound upper_bound tolerance : R) (max_iterations : N) :
  let result := implied_volatility option target_price lower_bound
                                   upper_bound tolerance max_iterations in
  let executed := executed_iterations option target_price lower_bound
                                      upper_bound tolerance max_iterations in
  ImpliedVolatilityResult.converged result = false ->
  executed = N.to_nat max_iterations /\
  ImpliedVolatilityResult.iterations result
    = ((max_iterations + 1) mod size_t_modulus)%N.
Proof.
  cbv zeta. intros Hconv.
  destruct (implied_volatility_run option target_price lower_bound
              upper_bound tolerance max_iterations)
    as [(i & _ & _ & _ & Hc & _) | (_ & _ & _ & Hiter & Hexec)];
    [congruence | ].
  split; assumption.
Qed.

(** With a tolerance of [0.0] neither stopping rule can hold. *)
Lemma never_stops_at_zero_tolerance
    (price_at : R -> R) (target_price lower_bound upper_bound : R) (k : nat) :
  ~ BisectionSpec.stops price_at target_price 0.0 lower_bound upper_bound k.
Proof.
  unfold BisectionSpec.stops, BisectionSpec.price_rule,
    BisectionSpec.width_rule.
  intros [H | H]; match type of H with Rabs ?x < _ =>
    pose proof (Rabs_pos x) end; lra.
Qed.

(** With a tolerance of [0.0] the solver runs out of iterations. *)
Lemma zero_tolerance_exhausts
    (option : OptionInput.t) (target_price : R)
    (lower_bound upper_bound : R) (max_iterations : N) :
  let result := implied_volatility option target_price lower_bound
                                   upper_bound 0.0 max_iterations in
  ImpliedVolatilityResult.converged result = false /\
  ImpliedVolatilityResult.iterations result
    = ((max_iterations + 1) mod size_t_modulus)%N /\
  executed_iterations option target_price lower_bound upper_bound 0.0
                      max_iterations = N.to_nat max_iterations.
Proof.
  cbv zeta.
  destruct (implied_volatility_run option target_price lower_bound
              upper_bound 0.0 max_iterations)
    as [(i & _ & Hstop & _) | (_ & Hc & _ & Hiter & Hexec)].
  - exfalso. exact (never_stops_at_zero_tolerance _ _ _ _ _ Hstop).
  - repeat split; assumption.
Qed.

Lemma implied_volatility_iterations_exhausted_witness :
  let result := implied_volatility (test_option true) 8.433319
                  default_lower_bound default_upper_bound 0.0 100 in
  ImpliedVolatilityResult.converged result = false /\
  executed_iterations (test_option true) 8.433319 default_lower_bound
                      default_upper_bound 0.0 100 = N.to_nat 100 /\
  ImpliedVolatilityResult.iterations result = ((100 + 1) mod size_t_modulus)%N.
Proof.
  cbv zeta.
  destruct (zero_tolerance_exhausts (test_option true) 8.433319
              default_lower_bound default_upper_bound 100) as (Hc & _).
  split; [exact Hc | ].
  exact (implied_volatility_iterations_exhausted (test_option true) 8.433319
           default_lower_bound default_upper_bound 0.0 100 Hc).
Defined.

(** C2 (the code's behaviour at a failing input).  Called on the option of
    the test-suite with target price [8.433319], the default bounds, a
    tolerance of [0.0] and [max_iterations = 1], the solver makes one pass
    through the loop body, does not converge, and reports [iterations = 2]:
    not the number of iterations executed, and not [max_iterations]. *)
Theorem implied_volatility_iterations_off_by_one :
  let result := implied_volatility (test_option true) 8.433319
                  default_lower_bound default_upper_bound 0.0 1 in
  executed_iterations (test_option true) 8.433319
    default_lower_bound default_upper_bound 0.0 1 = 1%nat /\
  ImpliedVolatilityResult.converged result = false /\
  ImpliedVolatilityResult.iterations result = 2%N.
Proof.
  cbv zeta.
  destruct (zero_tolerance_exhausts (test_option true) 8.433319
              default_lower_bound default_upper_bound 1)
    as (Hc & Hiter & Hexec).
  repeat split; assumption.
Qed.

(** ** Bracket containment *)

Section BracketFacts.

Variable price_at : R -> R.
Variables target_price tolerance lower_bound upper_bound : R.

Local Abbreviation body := (iv_body price_at target_price tolerance).
Local Abbreviation loop := (iv_loop price_at target_price tolerance).
Local Abbreviation trace := (iv_trace price_at target_price tolerance).

Lemma last_cons_default {A : Type} (l : list A) (x a b : A) :
  last (x :: l) a = last (x :: l) b.
Proof.
  revert x. induction l as [ | y l IH]; intros x; [reflexivity | ].
  cbn [last] in *. apply IH.
Qed.

(** The loop ends with the variables its last pass leaves (the [for] then
    only increments [iteration]). *)
Lemma iv_loop_last_of_trace (n : nat) :
  forall st, same_variables (loop n st) (last (trace n st) st).
Proof.
  induction n as [ | m IH]; intros st; [repeat split | ].
  cbn [iv_loop iv_trace].
  destruct (body st) as [st' [ | ]]; [repeat split | ].
  specialize (IH (IvState.next_iteration st')).
  destruct (trace m (IvState.next_iteration st')) as [ | x l] eqn:E.
  - cbn [last] in *. exact IH.
  - rewrite (last_cons_default l x _ st) in IH.
    cbn [last] in *. exact IH.
Qed.

(** One pass keeps the bracket inside the bounds, with the new midpoint
    inside the bracket. *)
Lemma iv_body_bracket (st : IvState.t) :
  bracket_ordered lower_bound upper_bound st ->
  bracket_invariant lower_bound upper_bound (fst (body st)).
Proof.
  intros (Hlo & Hord & Hhi). unfold iv_body, bracket_invariant.
  set (m := 0.5 * (IvState.low st + IvState.high st)).
  assert (Hm : IvState.low st <= m <= IvState.high st) by (unfold m; lra).
  destruct (Rlt_dec _ tolerance); [cbn; lra | ].
  destruct (Rgt_dec _ 0.0); destruct (Rlt_dec _ tolerance); cbn; lra.
Qed.

Lemma bracket_invariant_ordered (st : IvState.t) :
  bracket_invariant lower_bound upper_bound st ->
  bracket_ordered lower_bound upper_bound (IvState.next_iteration st).
Proof.
  unfold bracket_invariant, bracket_ordered. destruct st; cbn. lra.
Qed.

(** Every pass of the loop ends in a state that satisfies the invariant. *)
Lemma iv_trace_bracket (n : nat) :
  forall st,
    bracket_ordered lower_bound upper_bound st ->
    Forall (bracket_invariant lower_bound upper_bound) (trace n st).
Proof.
  induction n as [ | m IH]; intros st Hst; [constructor | ].
  cbn [iv_trace].
  pose proof (iv_body_bracket st Hst) as Hb.
  destruct (body st) as [st' [ | ]]; cbn [fst] in Hb.
  - constructor; [exact Hb | constructor].
  - constructor; [exact Hb | ].
    apply IH, bracket_invariant_ordered, Hb.
Qed.

Lemma iv_trace_nonempty (n : nat) (st : IvState.t) :
  (1 <= n)%nat -> trace n st <> [].
Proof.
  destruct n as [ | m]; [lia | ]. intros _. cbn [iv_trace].
  destruct (body st) as [st' [ | ]]; discriminate.
Qed.

Lemma Forall_last {A : Type} (P : A -> Prop) (l : list A) (d : A) :
  l <> [] -> Forall P l -> P (last l d).
Proof.
  induction l as [ | x l IH]; [congruence | ].
  intros _ H. inversion H as [ | ? ? Hx Hl]; subst.
  destruct l as [ | y l]; [exact Hx | ].
  apply IH; [discriminate | exact Hl].
Qed.

End BracketFacts.





(** ** Convergence with the default arguments *)

Section BracketWidth.

Variable price_at : R -> R.
Variables target_price lower_bound upper_bound : R.

Local Abbreviation bracket :=
(BisectionSpec.bracket price_at target_price lower_bound upper_bound).

(** Each iteration halves the bracket. *)
Lemma bracket_width (k : nat) :
  snd (bracket k) - fst (bracket k) = (upper_bound - lower_bound) / 2 ^ k.
Proof.
  induction k as [ | k IH].
  - cbn. field.
  - cbn [BisectionSpec.bracket]. unfold BisectionSpec.narrow.
    destruct (Rgt_dec _ 0); cbn [fst snd]; unfold BisectionSpec.mid_of.
    + replace ((fst (bracket k) + snd (bracket k)) / 2 - fst (bracket k))
        with ((snd (bracket k) - fst (bracket k)) / 2) by field.
      rewrite IH. cbn [pow]. field. apply pow_nonzero. lra.
    + replace (snd (bracket k) - (fst (bracket k) + snd (bracket k)) / 2)
        with ((snd (bracket k) - fst (bracket k)) / 2) by field.
      rewrite IH. cbn [pow]. field. apply pow_nonzero. lra.
Qed.

End BracketWidth.

(** With the default bounds and tolerance, the width rule holds at
    iteration 22 (the twenty-third). *)
Lemma default_arguments_stop
    (option : OptionInput.t) (target_price : R) :
  BisectionSpec.stops (guess_price option) target_price default_tolerance
                      default_lower_bound default_upper_bound 22.
Proof.
  right. unfold BisectionSpec.width_rule. rewrite bracket_width.
  unfold default_tolerance, default_lower_bound, default_upper_bound.
  rewrite Rabs_pos_eq.
  - apply Rmult_lt_reg_r with (2 ^ 23); [apply pow_lt; lra | ].
    unfold Rdiv. rewrite Rmult_assoc, Rinv_l by (apply pow_nonzero; lra).
    simpl. lra.
  - apply Rdiv_nonneg; [lra | apply pow_lt; lra].
Qed.

Lemma default_arguments_run
    (option : OptionInput.t) (target_price : R) :
  let result := implied_volatility option target_price default_lower_bound
                  default_upper_bound default_tolerance
                  default_max_iterations in
  ImpliedVolatilityResult.converged result = true /\
  (1 <= ImpliedVolatilityResult.iterations result <= 23)%N.
Proof.
  cbv zeta. pose proof (default_arguments_stop option target_price) as Hstop.
  destruct (implied_volatility_run option target_price default_lower_bound
              default_upper_bound default_tolerance default_max_iterations)
    as [(i & Hi & _ & Hfirst & Hc & _ & Hiter & _) | (Hnone & _)].
  - split; [exact Hc | ]. rewrite Hiter.
    assert (Hi22 : (i <= 22)%nat).
    { destruct (Nat.le_gt_cases i 22) as [H | H]; [exact H | ].
      exfalso. exact (Hfirst 22%nat H Hstop). }
    rewrite N.mod_small by (unfold size_t_modulus; lia). lia.
  - exfalso. apply (Hnone 22%nat); [ | exact Hstop].
    unfold default_max_iterations. lia.
Qed.

(** X1.  With the default bounds, tolerance and iteration limit, the bracket
    is narrower than the tolerance after 23 iterations at the latest: the
    solver always reports convergence, after at most 23 iterations, and
    never exhausts [max_iterations]. *)
Theorem implied_volatility_default_converges
    (option : OptionInput.t) (target_price : R) :
  let result := implied_volatility option target_price default_lower_bound
                  default_upper_bound default_tolerance
                  default_max_iterations in
  ImpliedVolatilityResult.converged result = true /\
  (1 <= ImpliedVolatilityResult.iterations result <= 23)%N.
Proof. exact (default_arguments_run option target_price). Qed.

Lemma implied_volatility_iterations_converged_witness :
  let result := implied_volatility (test_option true) 8.433319
                  default_lower_bound default_upper_bound default_tolerance
                  default_max_iterations in
  let executed := executed_iterations (test_option true) 8.433319
                    default_lower_bound default_upper_bound default_tolerance
                    default_max_iterations in
  (default_max_iterations < size_t_modulus)%N /\
  ImpliedVolatilityResult.converged result = true /\
  ImpliedVolatilityResult.iterations result = N.of_nat executed /\
  (1 <= executed <= N.to_nat default_max_iterations)%nat.
Proof.
  cbv zeta.
  assert (Hmax : (default_max_iterations < size_t_modulus)%N)
    by (unfold default_max_iterations, size_t_modulus; lia).
  destruct (default_arguments_run (test_option true) 8.433319) as (Hc & _).
  split; [exact Hmax | split; [exact Hc | ]].
  exact (implied_volatility_iterations_converged (test_option true) 8.433319
           default_lower_bound default_upper_bound default_tolerance
           default_max_iterations Hmax Hc).
Defined.

(* ================================================================== *)
(** * monte_carlo_price *)
(* ================================================================== *)

Section MonteCarloFacts.

Variable rng_state : Type.
Variable mt19937 : N -> rng_state.
Variable standard_normal : rng_state -> R * rng_state.
Variable option : OptionInput.t.

Local Abbreviation simulate := (mc_simulate rng_state standard_normal option).
Local Abbreviation path := (mc_path rng_state standard_normal option).
Local Abbreviation mc_invariant := (mc_invariant rng_state).
Local Abbreviation mc_draws := (mc_draws rng_state standard_normal).

Lemma total_app (l1 l2 : list R) :
  EstimatorSpec.total (l1 ++ l2) = EstimatorSpec.total l1 + EstimatorSpec.total l2.
Proof.
  unfold EstimatorSpec.total.
  induction l1 as [ | x l1 IH]; cbn [app fold_right]; [ring | rewrite IH; ring].
Qed.

Lemma mc_payoff_nonneg (z : R) : 0 <= mc_payoff option z.
Proof.
  unfold mc_payoff.
  destruct (OptionInput.is_call option);
    match goal with |- _ <= std_max ?a ?b =>
      pose proof (std_max_ge_right a b) end; lra.
Qed.

Lemma mc_path_invariant (st : McState.t rng_state) :
  mc_invariant st -> mc_invariant (path st).
Proof.
  intros [Hsum Hpos]. unfold mc_path, mc_invariant.
  destruct (standard_normal (McState.rng st)) as [z rng'].
  cbn [McState.sum McState.payoffs]. split.
  - rewrite total_app, Hsum. unfold EstimatorSpec.total; cbn. ring.
  - apply Forall_app. split; [exact Hpos | ].
    constructor; [apply mc_payoff_nonneg | constructor].
Qed.

Lemma mc_path_length (st : McState.t rng_state) :
  length (McState.payoffs (path st)) = S (length (McState.payoffs st)).
Proof.
  unfold mc_path. destruct (standard_normal (McState.rng st)) as [z rng'].
  cbn [McState.payoffs]. rewrite length_app. cbn. lia.
Qed.

Lemma mc_simulate_invariant (n : nat) :
  forall st, mc_invariant st -> mc_invariant (simulate n st).
Proof.
  induction n as [ | m IH]; intros st Hst; [exact Hst | ].
  cbn [mc_simulate]. apply IH, mc_path_invariant, Hst.
Qed.

Lemma mc_simulate_length (n : nat) :
  forall st,
    length (McState.payoffs (simulate n st))
    = (length (McState.payoffs st) + n)%nat.
Proof.
  induction n as [ | m IH]; intros st; cbn [mc_simulate]; [lia | ].
  rewrite IH, mc_path_length. lia.
Qed.

Lemma mc_init_invariant (seed : N) :
  mc_invariant (McState.Build (mt19937 seed) [] 0.0).
Proof.
  split; cbn; [unfold EstimatorSpec.total; cbn; lra | constructor].
Qed.

(** The vector [payoffs] holds one payoff per path. *)
Lemma mc_payoffs_length (paths seed : N) :
  length (mc_payoffs rng_state mt19937 standard_normal option paths seed)
  = N.to_nat paths.
Proof. unfold mc_payoffs. rewrite mc_simulate_length. reflexivity. Qed.

(** The accumulation loop of the variance, as a total. *)
Lemma mc_variance_sum_total (mean_payoff : R) (l : list R) :
  mc_variance_sum mean_payoff l
  = EstimatorSpec.total (map (fun x => (x - mean_payoff) ^ 2) l).
Proof.
  unfold mc_variance_sum, EstimatorSpec.total.
  assert (H : forall acc,
             fold_left (fun variance_sum payoff =>
                          let diff := payoff - mean_payoff in
                          variance_sum + diff * diff) l acc
             = acc + fold_right Rplus 0
                       (map (fun x => (x - mean_payoff) ^ 2) l)).
  { induction l as [ | x l IH]; intros acc; cbn [fold_left map fold_right].
    - ring.
    - rewrite IH. cbv zeta. ring. }
  rewrite H. lra.
Qed.

Lemma double_of_uint32_INR (n : N) : double_of_uint32 n = INR (N.to_nat n).
Proof.
  unfold double_of_uint32. rewrite INR_IZR_INZ. f_equal.
  symmetry. apply N_nat_Z.
Qed.

(** The result of [monte_carlo_price] for a positive path count, in the
    specification's estimators. *)
Lemma monte_carlo_price_estimators (paths seed : N) :
  (paths <> 0)%N ->
  let payoffs :=
    mc_payoffs rng_state mt19937 standard_normal option paths seed in
  let result :=
    monte_carlo_price rng_state mt19937 standard_normal option paths seed in
  MonteCarloResult.price result
    = mc_discount option * EstimatorSpec.mean payoffs /\
  MonteCarloResult.standard_error result
    = mc_discount option * EstimatorSpec.standard_error payoffs.
Proof.
  intros Hpaths; cbv zeta. unfold monte_carlo_price.
  destruct (N.eqb_spec paths 0) as [E | _]; [contradiction | ].
  cbn [MonteCarloResult.price MonteCarloResult.standard_error].
  fold (mc_payoffs rng_state mt19937 standard_normal option paths seed).
  set (payoffs := mc_payoffs rng_state mt19937 standard_normal option paths seed).
  assert (Hsum : McState.sum
            (simulate (N.to_nat paths) (McState.Build (mt19937 seed) [] 0.0))
            = EstimatorSpec.total payoffs)
    by (apply mc_simulate_invariant, mc_init_invariant).
  assert (Hlen : double_of_uint32 paths = INR (length payoffs))
    by (unfold payoffs; rewrite mc_payoffs_length; apply double_of_uint32_INR).
  rewrite Hsum, mc_variance_sum_total, Hlen.
  fold (EstimatorSpec.mean payoffs).
  split; [reflexivity | ].
  unfold EstimatorSpec.standard_error, EstimatorSpec.population_variance.
  unfold EstimatorSpec.mean at 2. rewrite length_map. reflexivity.
Qed.

Lemma mc_simulate_draws (n : nat) :
  forall st,
    McState.payoffs (simulate n st)
    = McState.payoffs st ++ map (mc_payoff option) (mc_draws n (McState.rng st)).
Proof.
  induction n as [ | m IH]; intros st; cbn [mc_simulate mc_draws].
  - cbn [map]. rewrite app_nil_r. reflexivity.
  - rewrite IH. unfold mc_path.
    destruct (standard_normal (McState.rng st)) as [z rng'].
    cbn [McState.payoffs McState.rng map]. rewrite <- app_assoc. reflexivity.
Qed.

(** The vector [payoffs] holds the payoff of each path's variate. *)
Lemma mc_payoffs_draws (paths seed : N) :
  mc_payoffs rng_state mt19937 standard_normal option paths seed
  = map (mc_payoff option) (mc_draws (N.to_nat paths) (mt19937 seed)).
Proof. unfold mc_payoffs. rewrite mc_simulate_draws. reflexivity. Qed.

(** C4.  For a path count [n >= 1], [monte_carlo_price] returns the price
    [e^(-rT) * mean(payoffs)] and the standard error
    [e^(-rT) * sqrt(variance) / sqrt(n)], where [payoffs] holds the payoff
    of each of the [n] simulated paths and [variance] is their population
    variance (mean of the squared deviations from the payoff mean, divisor
    [n]). *)
Theorem monte_carlo_price_estimate (paths seed : N) :
  (1 <= paths)%N ->
  let r := OptionInput.rate option in
  let T := OptionInput.time_to_maturity option in
  let payoffs :=
    map (mc_payoff option) (mc_draws (N.to_nat paths) (mt19937 seed)) in
  let result :=
    monte_carlo_price rng_state mt19937 standard_normal option paths seed in
  length payoffs = N.to_nat paths /\
  MonteCarloResult.price result
    = exp (- r * T) * EstimatorSpec.mean payoffs /\
  MonteCarloResult.standard_error result
    = exp (- r * T)
      * (sqrt (EstimatorSpec.population_variance payoffs)
         / sqrt (INR (N.to_nat paths))).
Proof.
  intros Hpaths; cbv zeta.
  assert (Hne : (paths <> 0)%N) by lia.
  destruct (monte_carlo_price_estimators paths seed Hne) as [Hprice Herr].
  rewrite mc_payoffs_draws in Hprice, Herr.
  pose proof (mc_payoffs_length paths seed) as Hlen.
  rewrite mc_payoffs_draws in Hlen.
  split; [exact Hlen | ]. split; [exact Hprice | ].
  rewrite Herr. unfold EstimatorSpec.standard_error, mc_discount.
  rewrite Hlen. reflexivity.
Qed.

(** C5.  With a path count of zero, [monte_carlo_price] returns the price
    [0] and the standard error [0], whatever the option and the seed. *)
Theorem monte_carlo_price_zero_paths (seed : N) :
  MonteCarloResult.price
    (monte_carlo_price rng_state mt19937 standard_normal option 0 seed) = 0 /\
  MonteCarloResult.standard_error
    (monte_carlo_price rng_state mt19937 standard_normal option 0 seed) = 0.
Proof.
  unfold monte_carlo_price. cbn [N.eqb MonteCarloResult.price
                                 MonteCarloResult.standard_error].
  split; lra.
Qed.

End MonteCarloFacts.

Lemma monte_carlo_price_estimate_witness :
  (1 <= 4)%N /\
  let payoffs :=
    map (mc_payoff (test_option true))
        (mc_draws unit constant_rng_draw (N.to_nat 4) tt) in
  let result :=
    monte_carlo_price unit constant_rng_seed constant_rng_draw
                      (test_option true) 4 42 in
  length payoffs = N.to_nat 4 /\
  MonteCarloResult.price result
    = exp (- (0.01) * 1.0) * EstimatorSpec.mean payoffs /\
  MonteCarloResult.standard_error result
    = exp (- (0.01) * 1.0)
      * (sqrt (EstimatorSpec.population_variance payoffs)
         / sqrt (INR (N.to_nat 4))).
Proof.
  assert (H : (1 <= 4)%N) by lia.
  split; [exact H | ].
  exact (monte_carlo_price_estimate unit constant_rng_seed constant_rng_draw
           (test_option true) 4 42 H).
Defined.


(* ================================================================== *)
(** * Monotonicity of the price in the volatility *)
(* ================================================================== *)

Lemma sqrt2_sqr : kSqrtTwo * kSqrtTwo = 2.
Proof. unfold kSqrtTwo. apply sqrt_sqrt. lra. Qed.

Lemma sqrt2_pos : 0 < kSqrtTwo.
Proof. unfold kSqrtTwo. apply sqrt_lt_R0. lra. Qed.



(** The density is the derivative of the distribution function. *)
Lemma normal_cdf_derivable (x : R) :
  derivable_pt_lim normal_cdf x (normal_pdf x).
Proof.
  set (a := - / kSqrtTwo).
  apply (CmathFacts.derivable_pt_lim_eq
           (mult_real_fct 0.5 (comp Cmath.erfc (mult_real_fct a id)))
           normal_cdf x
           (0.5 * (- (2 / sqrt PI * Cmath.gauss (a * x)) * (a * 1)))).
  - apply derivable_pt_lim_scal.
    apply (derivable_pt_lim_comp (mult_real_fct a id) Cmath.erfc).
    + apply derivable_pt_lim_scal, derivable_pt_lim_id.
    + apply CmathFacts.erfc_derivable.
  - intros z. unfold mult_real_fct, comp, id, normal_cdf, a.
    do 2 f_equal. unfold Rdiv. ring.
  - pose proof sqrt2_sqr as H2. pose proof sqrt2_pos as H2pos.
    pose proof PI_RGT_0 as Hpi.
    assert (Hspi : 0 < sqrt PI) by (apply sqrt_lt_R0; lra).
    unfold normal_pdf, kInvSqrtTwoPi, Cmath.gauss.
    replace (sqrt (2 * PI)) with (kSqrtTwo * sqrt PI)
      by (unfold kSqrtTwo; symmetry; apply sqrt_mult; lra).
    replace (- (a * x * (a * x))) with (-0.5 * x * x).
    + set (e := exp _). unfold a. replace 0.5 with (/ 2) by lra.
      field. split; lra.
    + unfold a.
      replace (- (- / kSqrtTwo * x * (- / kSqrtTwo * x)))
        with (- (x * x * (/ kSqrtTwo * / kSqrtTwo))) by ring.
      rewrite <- Rinv_mult, H2. lra.
Qed.

Section TotalVolatilityFacts.

Variables F KD m : R.

Local Abbreviation d1 := (TotalVolatility.d1 m).
Local Abbreviation d2 := (TotalVolatility.d2 m).
Local Abbreviation call := (TotalVolatility.call F KD m).

Lemma inv_scaled_derivable (s : R) :
  s <> 0 -> derivable_pt_lim (fun t => m / t) s (- m / (s * s)).
Proof.
  intros Hs.
  apply (CmathFacts.derivable_pt_lim_eq (fct_cte m / id)%F (fun t => m / t) s
           ((0 * id s - 1 * fct_cte m s) / Rsqr (id s))).
  - apply derivable_pt_lim_div;
      [apply derivable_pt_lim_const | apply derivable_pt_lim_id | exact Hs].
  - intros; reflexivity.
  - unfold id, fct_cte, Rsqr. field. exact Hs.
Qed.

Lemma d1_derivable (s : R) :
  s <> 0 -> derivable_pt_lim d1 s (- m / (s * s) + / 2).
Proof.
  intros Hs.
  apply (CmathFacts.derivable_pt_lim_eq
           (plus_fct (fun t => m / t) (mult_real_fct (/ 2) id)) d1 s
           (- m / (s * s) + / 2 * 1)).
  - apply derivable_pt_lim_plus; [apply inv_scaled_derivable, Hs | ].
    apply derivable_pt_lim_scal, derivable_pt_lim_id.
  - intros z. unfold plus_fct, mult_real_fct, id, TotalVolatility.d1. lra.
  - ring.
Qed.

Lemma d2_derivable (s : R) :
  s <> 0 -> derivable_pt_lim d2 s (- m / (s * s) - / 2).
Proof.
  intros Hs.
  apply (CmathFacts.derivable_pt_lim_eq
           (minus_fct (fun t => m / t) (mult_real_fct (/ 2) id)) d2 s
           (- m / (s * s) - / 2 * 1)).
  - apply derivable_pt_lim_minus; [apply inv_scaled_derivable, Hs | ].
    apply derivable_pt_lim_scal, derivable_pt_lim_id.
  - intros z. unfold minus_fct, mult_real_fct, id, TotalVolatility.d2. lra.
  - ring.
Qed.

Hypothesis moneyness : F * exp (- m) = KD.

(** [F phi(d1) = KD phi(d2)] *)
Lemma pdf_balance (s : R) :
  s <> 0 -> F * normal_pdf (d1 s) = KD * normal_pdf (d2 s).
Proof.
  intros Hs. unfold normal_pdf.
  replace (-0.5 * d1 s * d1 s) with (- m + -0.5 * d2 s * d2 s)
    by (unfold TotalVolatility.d1, TotalVolatility.d2; replace (-0.5) with (- / 2) by lra; field; exact Hs).
  rewrite exp_plus, <- moneyness. ring.
Qed.

(** Vega in total volatility: the derivative of the call price is
    [KD phi(d2)]. *)
Lemma call_derivable (s : R) :
  s <> 0 -> derivable_pt_lim call s (KD * normal_pdf (d2 s)).
Proof.
  intros Hs.
  apply (CmathFacts.derivable_pt_lim_eq
           (mult_real_fct F (comp normal_cdf d1)
            - mult_real_fct KD (comp normal_cdf d2))%F call s
           (F * (normal_pdf (d1 s) * (- m / (s * s) + / 2))
            - KD * (normal_pdf (d2 s) * (- m / (s * s) - / 2)))).
  - apply derivable_pt_lim_minus; apply derivable_pt_lim_scal;
      apply derivable_pt_lim_comp;
      solve [apply d1_derivable, Hs | apply d2_derivable, Hs
            | apply normal_cdf_derivable].
  - intros; reflexivity.
  - pose proof (pdf_balance s Hs) as Hb.
    replace (F * (normal_pdf (d1 s) * (- m / (s * s) + / 2)))
      with (F * normal_pdf (d1 s) * (- m / (s * s) + / 2)) by ring.
    rewrite Hb. field. exact Hs.
Qed.

Hypothesis KD_pos : 0 < KD.


End TotalVolatilityFacts.

(** ** [black_scholes] in terms of the total volatility *)

Lemma floored_pos (a : R) : 0 < std_max a eps.
Proof. pose proof (std_max_ge_right a eps). pose proof eps_pos. lra. Qed.


Lemma bs_moneyness_balance (o : OptionInput.t) :
  bs_forward o * exp (- bs_moneyness o) = bs_discounted_strike o.
Proof.
  unfold bs_forward, bs_discounted_strike, bs_moneyness.
  set (S := floored_spot o). set (K := floored_strike o).
  set (T := floored_maturity o).
  set (r := OptionInput.rate o). set (q := OptionInput.dividend_yield o).
  assert (HS : 0 < S) by apply floored_pos.
  assert (HK : 0 < K) by apply floored_pos.
  assert (HSK : 0 < S / K) by (apply Rdiv_lt_0_compat; assumption).
  replace (- (ln (S / K) + (r - q) * T))
    with (- ln (S / K) + - ((r - q) * T)) by ring.
  rewrite exp_plus, exp_Ropp, (exp_ln _ HSK).
  replace (- r * T) with (- q * T + - ((r - q) * T)) by ring.
  rewrite (exp_plus (- q * T)).
  field. split; lra.
Qed.

(** The price that [black_scholes] returns when the volatility of [o] is
    replaced by [sigma], for [sigma] at or above the floor. *)
Lemma guess_price_total_volatility (o : OptionInput.t) (sigma : R) :
  eps <= sigma ->
  guess_price o sigma
  = let call := TotalVolatility.call (bs_forward o) (bs_discounted_strike o)
                  (bs_moneyness o) (sigma * sqrt (floored_maturity o)) in
    if OptionInput.is_call o then call
    else call + bs_discounted_strike o - bs_forward o.
Proof.
  intros Hsigma. unfold guess_price. bs_unfold.
  rewrite (std_max_left sigma eps Hsigma).
  unfold TotalVolatility.call, bs_forward, bs_discounted_strike, bs_moneyness.
  fold (floored_spot o) (floored_strike o) (floored_maturity o).
  set (S := floored_spot o). set (K := floored_strike o).
  set (T := floored_maturity o).
  set (r := OptionInput.rate o). set (q := OptionInput.dividend_yield o).
  assert (HT : 0 < T) by apply floored_pos.
  assert (Hc : 0 < sqrt T) by (apply sqrt_lt_R0, HT).
  assert (Hcc : sqrt T * sqrt T = T) by (apply sqrt_sqrt; lra).
  assert (Hs : 0 < sigma) by (pose proof eps_pos; lra).
  assert (Hd1 : (ln (S / K) + (r - q + 0.5 * sigma * sigma) * T)
                / (sigma * sqrt T)
                = TotalVolatility.d1 (ln (S / K) + (r - q) * T)
                                     (sigma * sqrt T)).
  { unfold TotalVolatility.d1. set (l := ln (S / K)).
    set (c := sqrt T) in *. rewrite <- Hcc.
    replace 0.5 with (/ 2) by lra. field. split; lra. }
  assert (Hd2 : TotalVolatility.d1 (ln (S / K) + (r - q) * T)
                                   (sigma * sqrt T) - sigma * sqrt T
                = TotalVolatility.d2 (ln (S / K) + (r - q) * T)
                                     (sigma * sqrt T)).
  { unfold TotalVolatility.d1, TotalVolatility.d2. lra. }
  rewrite Hd1, Hd2. cbv zeta.
  destruct (OptionInput.is_call o); cbn [OptionGreeks.price];
    [reflexivity | ].
  rewrite !normal_cdf_opp. ring.
Qed.





(* ================================================================== *)
(** * Further properties of black_scholes *)
(* ================================================================== *)

Lemma std_max_idempotent (a b : R) : std_max (std_max a b) b = std_max a b.
Proof. apply std_max_left, std_max_ge_right. Qed.

(** X5.  [black_scholes] prices an option at its inputs floored at [1e-9]:
    a spot, strike, volatility or maturity at or below the floor (zero or
    negative included) gives the result of the floor itself. *)
Theorem black_scholes_floor_invariant (o : OptionInput.t) :
  black_scholes o = black_scholes (floor_at_eps o).
Proof.
  unfold black_scholes, floor_at_eps.
  cbn [OptionInput.spot OptionInput.strike OptionInput.rate
       OptionInput.volatility OptionInput.time_to_maturity
       OptionInput.dividend_yield OptionInput.is_call].
  rewrite !std_max_idempotent. reflexivity.
Qed.

(** [d1] of [black_scholes] in the total volatility. *)
Lemma bs_d1_total_volatility (o : OptionInput.t) (sigma : R) :
  0 < sigma ->
  (ln (floored_spot o / floored_strike o)
   + (OptionInput.rate o - OptionInput.dividend_yield o
      + 0.5 * sigma * sigma) * floored_maturity o)
  / (sigma * sqrt (floored_maturity o))
  = TotalVolatility.d1 (bs_moneyness o) (sigma * sqrt (floored_maturity o)).
Proof.
  intros Hs. unfold TotalVolatility.d1, bs_moneyness.
  set (l := ln _). set (T := floored_maturity o).
  assert (HT : 0 < T) by apply floored_pos.
  assert (Hc : 0 < sqrt T) by (apply sqrt_lt_R0, HT).
  assert (Hcc : sqrt T * sqrt T = T) by (apply sqrt_sqrt; lra).
  set (c := sqrt T) in *. rewrite <- Hcc.
  replace 0.5 with (/ 2) by lra. field. split; lra.
Qed.

(** X9.  Vega is the derivative of the price in the volatility: above the
    floor, the price that [black_scholes] returns is differentiable in the
    volatility field, for calls and puts, and its derivative is the vega
    that [black_scholes] returns. *)
Theorem black_scholes_vega_is_derivative (o : OptionInput.t) (sigma : R) :
  eps < sigma ->
  derivable_pt_lim (guess_price o) sigma
    (OptionGreeks.vega (black_scholes (OptionInput.with_volatility o sigma))).
Proof.
  intros Hsigma. pose proof eps_pos as Heps.
  set (T := floored_maturity o).
  assert (Hc : 0 < sqrt T) by (apply sqrt_lt_R0, floored_pos).
  set (F := bs_forward o). set (KD := bs_discounted_strike o).
  set (m := bs_moneyness o).
  set (shift := if OptionInput.is_call o then 0 else KD - F).
  set (g := fun s => TotalVolatility.call F KD m (s * sqrt T) + shift).
  assert (Hg : derivable_pt_lim g sigma
                 (KD * normal_pdf (TotalVolatility.d2 m (sigma * sqrt T))
                  * sqrt T)).
  { apply (CmathFacts.derivable_pt_lim_eq
             (comp (TotalVolatility.call F KD m) (mult_real_fct (sqrt T) id)
              + fct_cte shift)%F g sigma
             (KD * normal_pdf (TotalVolatility.d2 m (sqrt T * sigma))
              * (sqrt T * 1) + 0)).
    - apply derivable_pt_lim_plus; [ | apply derivable_pt_lim_const].
      apply derivable_pt_lim_comp.
      + apply derivable_pt_lim_scal, derivable_pt_lim_id.
      + apply call_derivable; [apply bs_moneyness_balance | ].
        unfold mult_real_fct, id. apply Rgt_not_eq, Rmult_lt_0_compat; lra.
    - intros z. unfold g, plus_fct, comp, mult_real_fct, id, fct_cte.
      rewrite (Rmult_comm (sqrt T) z). reflexivity.
    - rewrite (Rmult_comm (sqrt T) sigma). ring. }
  apply (derivable_pt_lim_locally_ext g (guess_price o) sigma eps (sigma + 1)).
  - lra.
  - intros z Hz. rewrite guess_price_total_volatility by lra.
    unfold g, shift. cbv zeta. fold T F KD m.
    destruct (OptionInput.is_call o); lra.
  - replace (OptionGreeks.vega
               (black_scholes (OptionInput.with_volatility o sigma)))
      with (KD * normal_pdf (TotalVolatility.d2 m (sigma * sqrt T)) * sqrt T);
      [exact Hg | ].
    rewrite <- (pdf_balance F KD m (bs_moneyness_balance o))
      by (apply Rgt_not_eq, Rmult_lt_0_compat; lra).
    unfold m, T. rewrite <- (bs_d1_total_volatility o sigma) by lra.
    bs_unfold. rewrite (std_max_left sigma eps) by lra.
    unfold F, bs_forward, floored_spot, floored_maturity, floored_strike.
    destruct (OptionInput.is_call o); cbn [OptionGreeks.vega]; reflexivity.
Qed.

Lemma black_scholes_vega_is_derivative_witness :
  eps < 0.2 /\
  derivable_pt_lim (guess_price (test_option true)) 0.2
    (OptionGreeks.vega
       (black_scholes (OptionInput.with_volatility (test_option true) 0.2))).
Proof.
  assert (H : eps < 0.2) by (unfold eps; lra).
  split; [exact H | ].
  exact (black_scholes_vega_is_derivative (test_option true) 0.2 H).
Defined.

(* ================================================================== *)
(** * Properties of the service *)
(* ================================================================== *)

(** X20.  [sanitize_option] is idempotent and changes nothing on a clamped
    specification; on what it returns, the floor at [1e-9] inside
    [black_scholes] is the identity. *)
Theorem sanitize_option_idempotent (o : OptionInput.t) :
  sanitize_option (sanitize_option o) = sanitize_option o /\
  (clamped o -> sanitize_option o = o) /\
  floor_at_eps (sanitize_option o) = sanitize_option o.
Proof.
  split; [ | split].
  - unfold sanitize_option.
    cbn [OptionInput.spot OptionInput.strike OptionInput.rate
         OptionInput.volatility OptionInput.time_to_maturity
         OptionInput.dividend_yield OptionInput.is_call].
    rewrite !std_max_idempotent. reflexivity.
  - intros (HS & HK & Hsigma & HT). destruct o as [S K r sigma T q c].
    unfold sanitize_option. cbn in *.
    rewrite !std_max_left by assumption. reflexivity.
  - unfold floor_at_eps, sanitize_option.
    cbn [OptionInput.spot OptionInput.strike OptionInput.rate
         OptionInput.volatility OptionInput.time_to_maturity
         OptionInput.dividend_yield OptionInput.is_call].
    rewrite !std_max_eps_clamped by apply std_max_ge_right. reflexivity.
Qed.

(** The volatility that the solver returns lies within its bounds (from the
    invariant of the loop). *)
Lemma implied_volatility_bounds
    (o : OptionInput.t) (target_price : R)
    (lower_bound upper_bound tolerance : R) (max_iterations : N) :
  lower_bound <= upper_bound ->
  (1 <= max_iterations)%N ->
  lower_bound
    <= ImpliedVolatilityResult.implied_volatility
         (implied_volatility o target_price lower_bound upper_bound
                             tolerance max_iterations)
    <= upper_bound.
Proof.
  intros Hle Hmax.
  assert (Hinit : bracket_ordered lower_bound upper_bound
                    (iv_init lower_bound upper_bound))
    by (unfold bracket_ordered; cbn; lra).
  pose proof (iv_trace_bracket (guess_price o) target_price tolerance
                lower_bound upper_bound (N.to_nat max_iterations) _ Hinit)
    as Htrace.
  unfold implied_volatility.
  cbn [ImpliedVolatilityResult.implied_volatility].
  destruct (iv_loop_last_of_trace (guess_price o) target_price tolerance
              (N.to_nat max_iterations) (iv_init lower_bound upper_bound))
    as (_ & _ & -> & _).
  assert (Hne : iv_trace (guess_price o) target_price tolerance
                  (N.to_nat max_iterations)
                  (iv_init lower_bound upper_bound) <> [])
    by (apply iv_trace_nonempty; lia).
  pose proof (Forall_last _ _ (iv_init lower_bound upper_bound) Hne Htrace)
    as Hlast.
  unfold bracket_invariant in Hlast. lra.
Qed.

(** X21.  Each handler returns [INVALID_ARGUMENT] and leaves the response
    as it was when the request or the response pointer is null, and returns
    [OK] otherwise, whatever the values in the request. *)
Theorem handlers_status :
  (forall request response,
     fst (Price request response)
     = match request, response with
       | Some _, Some _ => Grpc.Status_OK
       | _, _ => null_status
       end /\
     (request = None \/ response = None ->
      snd (Price request response) = response)) /\
  (forall request response,
     fst (Greeks request response)
     = match request, response with
       | Some _, Some _ => Grpc.Status_OK
       | _, _ => null_status
       end /\
     (request = None \/ response = None ->
      snd (Greeks request response) = response)) /\
  (forall request response,
     fst (ImpliedVol request response)
     = match request, response with
       | Some _, Some _ => Grpc.Status_OK
       | _, _ => null_status
       end /\
     (request = None \/ response = None ->
      snd (ImpliedVol request response) = response)) /\
  (forall rng_state mt19937 standard_normal request response,
     fst (MonteCarlo rng_state mt19937 standard_normal request response)
     = match request, response with
       | Some _, Some _ => Grpc.Status_OK
       | _, _ => null_status
       end /\
     (request = None \/ response = None ->
      snd (MonteCarlo rng_state mt19937 standard_normal request response)
      = response)) /\
  Grpc.error_code null_status = Grpc.INVALID_ARGUMENT /\
  Grpc.error_code Grpc.Status_OK = Grpc.OK.
Proof.
  repeat split;
    try (destruct request, response; reflexivity);
    try (intros [-> | ->]; try destruct request; reflexivity).
Qed.

(** X22.  The ImpliedVol handler, on any request: the response reports
    convergence, an iteration count between 1 and 23 (which the cast to
    [uint32] does not change) and a volatility in [[1e-6, 5.0]]; and it does
    not depend on the volatility of the request's option nor on what the
    response held. *)
Theorem ImpliedVol_response
    (request : Proto.ImpliedVolRequest.t)
    (response : Proto.ImpliedVolResponse.t) :
  exists answer,
    ImpliedVol (Some request) (Some response) = (Grpc.Status_OK, Some answer) /\
    Proto.ImpliedVolResponse.converged answer = true /\
    (1 <= Proto.ImpliedVolResponse.iterations answer <= 23)%N /\
    1e-6 <= Proto.ImpliedVolResponse.implied_volatility answer <= 5.0 /\
    forall volatility response',
      let o := Proto.ImpliedVolRequest.option request in
      let o' := Proto.OptionSpecification.Build
                  (Proto.OptionSpecification.spot o)
                  (Proto.OptionSpecification.strike o)
                  (Proto.OptionSpecification.rate o)
                  volatility
                  (Proto.OptionSpecification.time_to_maturity o)
                  (Proto.OptionSpecification.dividend o)
                  (Proto.OptionSpecification.is_call o) in
      ImpliedVol (Some (Proto.ImpliedVolRequest.Build o'
                          (Proto.ImpliedVolRequest.target_price request)))
                 (Some response')
      = (Grpc.Status_OK, Some answer).
Proof.
  unfold ImpliedVol. cbv zeta.
  set (o := OptionInput.with_volatility _ _).
  set (target := Proto.ImpliedVolRequest.target_price request).
  destruct (default_arguments_run o target) as [Hc Hit]. cbv zeta in Hc, Hit.
  pose proof (implied_volatility_bounds o target default_lower_bound
                default_upper_bound default_tolerance default_max_iterations)
    as Hb.
  eexists. split; [reflexivity | ].
  cbn [Proto.ImpliedVolResponse.set_implied_volatility
       Proto.ImpliedVolResponse.set_converged
       Proto.ImpliedVolResponse.set_iterations
       Proto.ImpliedVolResponse.implied_volatility
       Proto.ImpliedVolResponse.converged
       Proto.ImpliedVolResponse.iterations].
  split; [exact Hc | ]. split; [ | split].
  - unfold uint32_of_size. rewrite N.mod_small; [exact Hit | ].
    apply N.le_lt_trans with 23%N; [apply Hit | reflexivity].
  - unfold default_lower_bound, default_upper_bound, default_max_iterations
      in Hb.
    apply Hb; [lra | lia].
  - intros volatility response'. reflexivity.
Qed.

Section MonteCarloHandlerFacts.

Variable rng_state : Type.
Variable mt19937 : N -> rng_state.
Variable standard_normal : rng_state -> R * rng_state.

Local Abbreviation handler :=
(MonteCarlo rng_state mt19937 standard_normal).

(** X23.  The MonteCarlo handler never simulates zero paths: a request with
    a path count of zero gets the response of the same request with 10000
    paths, and the response to any request is the result of
    [monte_carlo_price] on the sanitised option with a positive path
    count. *)
Theorem MonteCarlo_response
    (request : Proto.MonteCarloRequest.t)
    (response : Proto.MonteCarloResponse.t) :
  exists paths answer,
    handler (Some request) (Some response) = (Grpc.Status_OK, Some answer) /\
    (1 <= paths)%N /\
    paths = (if (Proto.MonteCarloRequest.paths request =? 0)%N
             then 10000%N else Proto.MonteCarloRequest.paths request) /\
    answer
    = (let result :=
         monte_carlo_price rng_state mt19937 standard_normal
           (sanitize_option
              (option_from_proto (Proto.MonteCarloRequest.option request)))
           paths (Proto.MonteCarloRequest.seed request) in
       Proto.MonteCarloResponse.Build
         (MonteCarloResult.price result)
         (MonteCarloResult.standard_error result)) /\
    handler (Some (Proto.MonteCarloRequest.Build
                     (Proto.MonteCarloRequest.option request) paths
                     (Proto.MonteCarloRequest.seed request)))
            (Some response)
    = (Grpc.Status_OK, Some answer).
Proof.
  set (paths := if (Proto.MonteCarloRequest.paths request =? 0)%N
                then 10000%N else Proto.MonteCarloRequest.paths request).
  assert (Hpaths : (1 <= paths)%N).
  { unfold paths.
    destruct (N.eqb_spec (Proto.MonteCarloRequest.paths request) 0); lia. }
  assert (Hne : (paths <> 0)%N) by lia.
  exists paths. eexists.
  split; [reflexivity | ]. split; [exact Hpaths | ].
  split; [reflexivity | ]. split; [reflexivity | ].
  unfold MonteCarlo.
  cbn [Proto.MonteCarloRequest.paths Proto.MonteCarloRequest.option
       Proto.MonteCarloRequest.seed].
  destruct (N.eqb_spec paths 0) as [E | _]; [contradiction | ].
  reflexivity.
Qed.

End MonteCarloHandlerFacts.

(* ================================================================== *)
(** * Delta, gamma and rho as derivatives *)
(* ================================================================== *)

Lemma ln_ratio_derivable (K S : R) :
  0 < K -> 0 < S -> derivable_pt_lim (fun x => ln (x / K)) S (/ S).
Proof.
  intros HK HS.
  apply (CmathFacts.derivable_pt_lim_eq
           (comp ln (mult_real_fct (/ K) id)) (fun x => ln (x / K)) S
           (/ (/ K * S) * (/ K * 1))).
  - apply (derivable_pt_lim_comp (mult_real_fct (/ K) id) ln).
    + apply derivable_pt_lim_scal, derivable_pt_lim_id.
    + unfold mult_real_fct, id. apply derivable_pt_lim_ln.
      apply Rmult_lt_0_compat; [apply Rinv_0_lt_compat | ]; assumption.
  - intros z. unfold comp, mult_real_fct, id. f_equal. unfold Rdiv. ring.
  - field. split; lra.
Qed.

(** The identity behind the Greeks: [S e^(-qT) phi(d1) = K e^(-rT) phi(d2)]
    at the floored inputs of [black_scholes]. *)
Lemma bs_pdf_balance (o : OptionInput.t) :
  let S := floored_spot o in
  let K := floored_strike o in
  let T := floored_maturity o in
  let r := OptionInput.rate o in
  let q := OptionInput.dividend_yield o in
  let sigma := std_max (OptionInput.volatility o) eps in
  let d := (ln (S / K) + (r - q + 0.5 * sigma * sigma) * T)
           / (sigma * sqrt T) in
  S * exp (- q * T) * normal_pdf d
  = K * exp (- r * T) * normal_pdf (d - sigma * sqrt T).
Proof.
  cbv zeta.
  assert (Hsigma : 0 < std_max (OptionInput.volatility o) eps)
    by apply floored_pos.
  assert (Hc : 0 < sqrt (floored_maturity o))
    by (apply sqrt_lt_R0, floored_pos).
  pose proof (bs_d1_total_volatility o _ Hsigma) as Hd1.
  pose proof (pdf_balance _ _ _ (bs_moneyness_balance o)
                (std_max (OptionInput.volatility o) eps
                 * sqrt (floored_maturity o))) as Hbal.
  unfold bs_forward, bs_discounted_strike in Hbal.
  rewrite Hd1. unfold TotalVolatility.d2 in Hbal.
  unfold TotalVolatility.d1 in *.
  match goal with
  | |- _ = _ * normal_pdf ?x =>
      match type of Hbal with
      | _ -> _ = _ * normal_pdf ?y => replace x with y by lra
      end
  end.
  apply Hbal, Rgt_not_eq, Rmult_lt_0_compat; assumption.
Qed.

Ltac bs_balance_at o' :=
  cbv zeta; pose proof (bs_pdf_balance o') as Hbal; cbv zeta in Hbal;
  unfold floored_spot, floored_strike, floored_maturity,
    with_spot, with_rate, with_maturity in *;
  cbn [OptionInput.spot OptionInput.strike OptionInput.rate
       OptionInput.volatility OptionInput.time_to_maturity
       OptionInput.dividend_yield] in Hbal.

Section SpotDerivatives.

(** [K], [e = e^(-qT)], [KD = K e^(-rT)], [A = (r - q + sigma^2 / 2) T] and
    [B = sigma sqrt(T)] of one option; [d S] is its [d1] at the spot [S]. *)
Variables K e KD A B : R.
Hypothesis K_pos : 0 < K.
Hypothesis B_pos : 0 < B.

Let d (S : R) : R := (ln (S / K) + A) / B.
Let call (S : R) : R := S * e * normal_cdf (d S) - KD * normal_cdf (d S - B).
Let delta (S : R) : R := e * normal_cdf (d S).

Lemma d_derivable (S : R) : 0 < S -> derivable_pt_lim d S (/ (S * B)).
Proof.
  intros HS.
  apply (CmathFacts.derivable_pt_lim_eq
           (mult_real_fct (/ B) ((fun x => ln (x / K)) + fct_cte A)%F) d S
           (/ B * (/ S + 0))).
  - apply derivable_pt_lim_scal, derivable_pt_lim_plus;
      [apply ln_ratio_derivable; assumption | apply derivable_pt_lim_const].
  - intros z. unfold mult_real_fct, plus_fct, fct_cte, d. unfold Rdiv. ring.
  - field. split; lra.
Qed.

Lemma cdf_d_derivable (S shift : R) :
  0 < S ->
  derivable_pt_lim (fun x => normal_cdf (d x - shift)) S
    (normal_pdf (d S - shift) * / (S * B)).
Proof.
  intros HS.
  apply (CmathFacts.derivable_pt_lim_eq
           (comp normal_cdf (d - fct_cte shift)%F)
           (fun x => normal_cdf (d x - shift)) S
           (normal_pdf (d S - shift) * (/ (S * B) - 0))).
  - apply (derivable_pt_lim_comp (d - fct_cte shift)%F normal_cdf).
    + apply derivable_pt_lim_minus;
        [apply d_derivable, HS | apply derivable_pt_lim_const].
    + apply normal_cdf_derivable.
  - intros; reflexivity.
  - ring.
Qed.

Lemma delta_derivable (S : R) :
  0 < S -> derivable_pt_lim delta S (e * normal_pdf (d S) / (S * B)).
Proof.
  intros HS.
  apply (CmathFacts.derivable_pt_lim_eq
           (mult_real_fct e (fun x => normal_cdf (d x - 0))) delta S
           (e * (normal_pdf (d S - 0) * / (S * B)))).
  - apply derivable_pt_lim_scal, cdf_d_derivable, HS.
  - intros z. unfold mult_real_fct, delta. rewrite Rminus_0_r. reflexivity.
  - rewrite Rminus_0_r. unfold Rdiv. ring.
Qed.

Lemma call_spot_derivable (S : R) :
  0 < S ->
  S * e * normal_pdf (d S) = KD * normal_pdf (d S - B) ->
  derivable_pt_lim call S (delta S).
Proof.
  intros HS Hbal.
  apply (CmathFacts.derivable_pt_lim_eq
           ((mult_real_fct e id * (fun x => normal_cdf (d x - 0)))
            - mult_real_fct KD (fun x => normal_cdf (d x - B)))%F call S
           ((e * 1 * normal_cdf (d S - 0)
             + mult_real_fct e id S * (normal_pdf (d S - 0) * / (S * B)))
            - KD * (normal_pdf (d S - B) * / (S * B)))).
  - apply derivable_pt_lim_minus.
    + apply (derivable_pt_lim_mult (mult_real_fct e id)
               (fun x => normal_cdf (d x - 0)) S (e * 1)
               (normal_pdf (d S - 0) * / (S * B))).
      * apply derivable_pt_lim_scal, derivable_pt_lim_id.
      * apply cdf_d_derivable, HS.
    + apply derivable_pt_lim_scal, cdf_d_derivable, HS.
  - intros z. unfold minus_fct, mult_fct, mult_real_fct, id, call.
    rewrite Rminus_0_r. ring.
  - unfold mult_real_fct, id, delta. rewrite Rminus_0_r.
    replace (e * S * (normal_pdf (d S) * / (S * B)))
      with (S * e * normal_pdf (d S) * / (S * B)) by ring.
    rewrite Hbal. ring.
Qed.

End SpotDerivatives.

Lemma with_spot_balance (o : OptionInput.t) (S : R) :
  eps < S ->
  let K := floored_strike o in
  let T := floored_maturity o in
  let r := OptionInput.rate o in
  let q := OptionInput.dividend_yield o in
  let sigma := std_max (OptionInput.volatility o) eps in
  let d := (ln (S / K) + (r - q + 0.5 * sigma * sigma) * T)
           / (sigma * sqrt T) in
  S * exp (- q * T) * normal_pdf d
  = K * exp (- r * T) * normal_pdf (d - sigma * sqrt T).
Proof.
  intros HS. bs_balance_at (with_spot o S).
  rewrite (std_max_left S eps) in Hbal by lra. exact Hbal.
Qed.

(** X25.  Delta is the derivative of the price in the spot: above the
    floor, the price that [black_scholes] returns is differentiable in the
    spot field, for calls and puts, and its derivative is the delta that
    [black_scholes] returns. *)
Theorem black_scholes_delta_is_derivative (o : OptionInput.t) (S : R) :
  eps < S -> derivable_pt_lim (price_of_spot o) S (delta_of_spot o S).
Proof.
  intros HS. pose proof eps_pos as Heps.
  pose proof (with_spot_balance o S HS) as Hbal. cbv zeta in Hbal.
  set (K := floored_strike o) in *. set (T := floored_maturity o) in *.
  set (r := OptionInput.rate o) in *.
  set (q := OptionInput.dividend_yield o) in *.
  set (sigma := std_max (OptionInput.volatility o) eps) in *.
  set (A := (r - q + 0.5 * sigma * sigma) * T) in *.
  set (B := sigma * sqrt T) in *.
  set (e := exp (- q * T)) in *. set (KD := K * exp (- r * T)) in *.
  assert (HK : 0 < K) by apply floored_pos.
  assert (HB : 0 < B).
  { apply Rmult_lt_0_compat; [apply floored_pos | ].
    apply sqrt_lt_R0, floored_pos. }
  set (d := fun x => (ln (x / K) + A) / B).
  set (put_part := if OptionInput.is_call o then 0 else 1).
  set (g := fun x => x * e * normal_cdf (d x) - KD * normal_cdf (d x - B)
                     + put_part * (KD - e * x)).
  assert (Hg : derivable_pt_lim g S
                 (e * normal_cdf (d S) - put_part * e)).
  { apply (CmathFacts.derivable_pt_lim_eq
             (plus_fct
                (fun x => x * e * normal_cdf (d x) - KD * normal_cdf (d x - B))
                (mult_real_fct put_part
                   (minus_fct (fct_cte KD) (mult_real_fct e id))))
             g S
             (e * normal_cdf (d S) + put_part * (0 - e * 1))).
    - apply derivable_pt_lim_plus.
      + apply (call_spot_derivable K e KD A B HK HB S); [lra | exact Hbal].
      + apply derivable_pt_lim_scal, derivable_pt_lim_minus;
          [apply derivable_pt_lim_const | ].
        apply derivable_pt_lim_scal, derivable_pt_lim_id.
    - intros z. unfold g, plus_fct, minus_fct, mult_real_fct, fct_cte, id.
      reflexivity.
    - ring. }
  apply (derivable_pt_lim_locally_ext g (price_of_spot o) S eps (S + 1)).
  - lra.
  - intros z Hz. unfold price_of_spot, with_spot. bs_unfold.
    rewrite (std_max_left z eps) by lra.
    unfold g, put_part, d, KD, e, B, A, K, T, sigma, r, q,
      floored_strike, floored_maturity.
    destruct (OptionInput.is_call o); cbn [OptionGreeks.price];
      rewrite ?normal_cdf_opp; lra.
  - replace (delta_of_spot o S)
      with (e * normal_cdf (d S) - put_part * e); [exact Hg | ].
    unfold delta_of_spot, with_spot. bs_unfold.
    rewrite (std_max_left S eps) by lra.
    unfold put_part, d, e, B, A, K, T, sigma, r, q,
      floored_strike, floored_maturity.
    destruct (OptionInput.is_call o); cbn [OptionGreeks.delta]; lra.
Qed.

Lemma black_scholes_delta_is_derivative_witness :
  eps < 100.0 /\
  derivable_pt_lim (price_of_spot (test_option false)) 100.0
    (delta_of_spot (test_option false) 100.0).
Proof.
  assert (H : eps < 100.0) by (unfold eps; lra).
  split; [exact H | ].
  exact (black_scholes_delta_is_derivative (test_option false) 100.0 H).
Defined.

(** X26.  Gamma is the derivative of delta in the spot: above the floor,
    the delta that [black_scholes] returns is differentiable in the spot
    field, for calls and puts, and its derivative is the gamma that
    [black_scholes] returns. *)
Theorem black_scholes_gamma_is_derivative (o : OptionInput.t) (S : R) :
  eps < S ->
  derivable_pt_lim (delta_of_spot o) S
    (OptionGreeks.gamma (black_scholes (with_spot o S))).
Proof.
  intros HS. pose proof eps_pos as Heps.
  set (K := floored_strike o). set (T := floored_maturity o).
  set (r := OptionInput.rate o). set (q := OptionInput.dividend_yield o).
  set (sigma := std_max (OptionInput.volatility o) eps).
  set (A := (r - q + 0.5 * sigma * sigma) * T).
  set (B := sigma * sqrt T).
  set (e := exp (- q * T)).
  assert (HK : 0 < K) by apply floored_pos.
  assert (HB : 0 < B).
  { apply Rmult_lt_0_compat; [apply floored_pos | ].
    apply sqrt_lt_R0, floored_pos. }
  set (d := fun x => (ln (x / K) + A) / B).
  set (put_part := if OptionInput.is_call o then 0 else 1).
  set (g := fun x => e * normal_cdf (d x) - put_part * e).
  assert (Hg : derivable_pt_lim g S (e * normal_pdf (d S) / (S * B))).
  { apply (CmathFacts.derivable_pt_lim_eq
             (minus_fct (fun x => e * normal_cdf (d x))
                (fct_cte (put_part * e))) g S
             (e * normal_pdf (d S) / (S * B) - 0)).
    - apply derivable_pt_lim_minus; [ | apply derivable_pt_lim_const].
      apply (delta_derivable K e A B HK HB S). lra.
    - intros z. reflexivity.
    - ring. }
  apply (derivable_pt_lim_locally_ext g (delta_of_spot o) S eps (S + 1)).
  - lra.
  - intros z Hz. unfold delta_of_spot, with_spot. bs_unfold.
    rewrite (std_max_left z eps) by lra.
    unfold g, put_part, d, e, B, A, K, T, sigma, r, q,
      floored_strike, floored_maturity.
    destruct (OptionInput.is_call o); cbn [OptionGreeks.delta]; lra.
  - replace (OptionGreeks.gamma (black_scholes (with_spot o S)))
      with (e * normal_pdf (d S) / (S * B)); [exact Hg | ].
    unfold with_spot. bs_unfold.
    rewrite (std_max_left S eps) by lra.
    unfold d, e, B, A, K, T, sigma, r, q, floored_strike, floored_maturity.
    destruct (OptionInput.is_call o); cbn [OptionGreeks.gamma]; reflexivity.
Qed.

Lemma black_scholes_gamma_is_derivative_witness :
  eps < 100.0 /\
  derivable_pt_lim (delta_of_spot (test_option true)) 100.0
    (OptionGreeks.gamma (black_scholes (with_spot (test_option true) 100.0))).
Proof.
  assert (H : eps < 100.0) by (unfold eps; lra).
  split; [exact H | ].
  exact (black_scholes_gamma_is_derivative (test_option true) 100.0 H).
Defined.

Lemma with_rate_balance (o : OptionInput.t) (r : R) :
  let S := floored_spot o in
  let K := floored_strike o in
  let T := floored_maturity o in
  let q := OptionInput.dividend_yield o in
  let sigma := std_max (OptionInput.volatility o) eps in
  let d := (ln (S / K) + (r - q + 0.5 * sigma * sigma) * T)
           / (sigma * sqrt T) in
  S * exp (- q * T) * normal_pdf d
  = K * exp (- r * T) * normal_pdf (d - sigma * sqrt T).
Proof.
  bs_balance_at (with_rate o r). exact Hbal.
Qed.

Lemma discount_derivable (T r : R) :
  derivable_pt_lim (fun x => exp (- x * T)) r (- T * exp (- r * T)).
Proof.
  apply (CmathFacts.derivable_pt_lim_eq
           (comp exp (mult_real_fct (- T) id)) (fun x => exp (- x * T)) r
           (exp (- T * r) * (- T * 1))).
  - apply (derivable_pt_lim_comp (mult_real_fct (- T) id) exp).
    + apply derivable_pt_lim_scal, derivable_pt_lim_id.
    + apply derivable_pt_lim_exp.
  - intros z. unfold comp, mult_real_fct, id. f_equal. ring.
  - replace (- T * r) with (- r * T) by ring. ring.
Qed.

(** X27.  Rho is the derivative of the price in the rate: the price that
    [black_scholes] returns is differentiable in the rate field at every
    rate, for calls and puts, and its derivative is the rho that
    [black_scholes] returns. *)
Theorem black_scholes_rho_is_derivative (o : OptionInput.t) (r : R) :
  derivable_pt_lim (price_of_rate o) r
    (OptionGreeks.rho (black_scholes (with_rate o r))).
Proof.
  pose proof (with_rate_balance o r) as Hbal. cbv zeta in Hbal.
  set (S := floored_spot o) in *.
  set (K := floored_strike o) in *. set (T := floored_maturity o) in *.
  set (q := OptionInput.dividend_yield o) in *.
  set (sigma := std_max (OptionInput.volatility o) eps) in *.
  set (B := sigma * sqrt T) in *.
  set (F := S * exp (- q * T)) in *.
  assert (HB : 0 < B).
  { apply Rmult_lt_0_compat; [apply floored_pos | ].
    apply sqrt_lt_R0, floored_pos. }
  set (L := ln (S / K)) in *.
  set (d := fun x => (L + (x - q + 0.5 * sigma * sigma) * T) / B).
  set (disc := fun x => exp (- x * T)).
  set (put_part := if OptionInput.is_call o then 0 else 1).
  set (g := fun x => F * normal_cdf (d x) - K * disc x * normal_cdf (d x - B)
                     + put_part * (K * disc x - F)).
  assert (Hd : forall shift,
             derivable_pt_lim (fun x => normal_cdf (d x - shift)) r
               (normal_pdf (d r - shift) * (T / B))).
  { intros shift.
    apply (CmathFacts.derivable_pt_lim_eq
             (comp normal_cdf
                (plus_fct (mult_real_fct (T / B) id)
                   (fct_cte ((L + (- q + 0.5 * sigma * sigma) * T) / B
                             - shift))))
             (fun x => normal_cdf (d x - shift)) r
             (normal_pdf (T / B * r
                          + ((L + (- q + 0.5 * sigma * sigma) * T) / B
                             - shift))
              * (T / B * 1 + 0))).
    - apply (derivable_pt_lim_comp
               (plus_fct (mult_real_fct (T / B) id)
                  (fct_cte ((L + (- q + 0.5 * sigma * sigma) * T) / B
                            - shift))) normal_cdf).
      + apply derivable_pt_lim_plus;
          [apply derivable_pt_lim_scal, derivable_pt_lim_id
          | apply derivable_pt_lim_const].
      + apply normal_cdf_derivable.
    - intros z. unfold comp, plus_fct, mult_real_fct, id, fct_cte, d.
      f_equal. unfold Rdiv. ring.
    - replace (T / B * r + ((L + (- q + 0.5 * sigma * sigma) * T) / B - shift))
        with (d r - shift) by (unfold d, Rdiv; ring).
      ring. }
  assert (Hdisc : derivable_pt_lim disc r (- T * disc r))
    by apply discount_derivable.
  assert (Hg : derivable_pt_lim g r
                 (K * T * disc r * normal_cdf (d r - B)
                  - put_part * (K * T * disc r))).
  { apply (CmathFacts.derivable_pt_lim_eq
             (plus_fct
                (minus_fct
                   (mult_real_fct F (fun x => normal_cdf (d x - 0)))
                   (mult_fct (mult_real_fct K disc)
                      (fun x => normal_cdf (d x - B))))
                (mult_real_fct put_part
                   (minus_fct (mult_real_fct K disc) (fct_cte F))))
             g r
             (F * (normal_pdf (d r - 0) * (T / B))
              - (K * (- T * disc r) * normal_cdf (d r - B)
                 + mult_real_fct K disc r
                   * (normal_pdf (d r - B) * (T / B)))
              + put_part * (K * (- T * disc r) - 0))).
    - apply derivable_pt_lim_plus; [apply derivable_pt_lim_minus | ].
      + apply derivable_pt_lim_scal, Hd.
      + apply (derivable_pt_lim_mult (mult_real_fct K disc)
                 (fun x => normal_cdf (d x - B)) r
                 (K * (- T * disc r))
                 (normal_pdf (d r - B) * (T / B))).
        * apply derivable_pt_lim_scal, Hdisc.
        * apply Hd.
      + apply derivable_pt_lim_scal, derivable_pt_lim_minus;
          [apply derivable_pt_lim_scal, Hdisc | apply derivable_pt_lim_const].
    - intros z. unfold g, plus_fct, minus_fct, mult_fct, mult_real_fct,
        fct_cte. rewrite Rminus_0_r. reflexivity.
    - unfold mult_real_fct. rewrite Rminus_0_r.
      assert (Hbal' : F * normal_pdf (d r) * (T / B)
                      = K * disc r * normal_pdf (d r - B) * (T / B))
        by (unfold d, disc; rewrite Hbal; reflexivity).
      lra. }
  apply (CmathFacts.derivable_pt_lim_eq g (price_of_rate o) r
           (K * T * disc r * normal_cdf (d r - B)
            - put_part * (K * T * disc r))).
  - exact Hg.
  - intros z. unfold price_of_rate, with_rate. bs_unfold.
    unfold g, put_part, d, disc, F, L, B, S, K, T, sigma, q,
      floored_spot, floored_strike, floored_maturity.
    destruct (OptionInput.is_call o); cbn [OptionGreeks.price];
      rewrite ?normal_cdf_opp; lra.
  - unfold with_rate. bs_unfold.
    unfold put_part, d, disc, F, L, B, S, K, T, sigma, q,
      floored_spot, floored_strike, floored_maturity.
    destruct (OptionInput.is_call o); cbn [OptionGreeks.rho];
      rewrite ?normal_cdf_opp; lra.
Qed.

Lemma with_maturity_balance (o : OptionInput.t) (T : R) :
  eps < T ->
  let S := floored_spot o in
  let K := floored_strike o in
  let r := OptionInput.rate o in
  let q := OptionInput.dividend_yield o in
  let sigma := std_max (OptionInput.volatility o) eps in
  let d := (ln (S / K) + (r - q + 0.5 * sigma * sigma) * T)
           / (sigma * sqrt T) in
  S * exp (- q * T) * normal_pdf d
  = K * exp (- r * T) * normal_pdf (d - sigma * sqrt T).
Proof.
  intros HT. bs_balance_at (with_maturity o T).
  rewrite (std_max_left T eps) in Hbal by lra. exact Hbal.
Qed.

Lemma decay_derivable (k T : R) :
  derivable_pt_lim (fun x => exp (- k * x)) T (- k * exp (- k * T)).
Proof.
  apply (CmathFacts.derivable_pt_lim_eq
           (comp exp (mult_real_fct (- k) id)) (fun x => exp (- k * x)) T
           (exp (- k * T) * (- k * 1))).
  - apply (derivable_pt_lim_comp (mult_real_fct (- k) id) exp).
    + apply derivable_pt_lim_scal, derivable_pt_lim_id.
    + apply derivable_pt_lim_exp.
  - intros z. reflexivity.
  - ring.
Qed.

Section MaturityDerivatives.

(** [L = ln(S/K)], [c = r - q + sigma^2 / 2] and [sigma] of one option;
    [s T] is its total volatility and [d T] its [d1] at the maturity [T]. *)
Variables L c sigma : R.
Hypothesis sigma_pos : 0 < sigma.

Let s (T : R) : R := sigma * sqrt T.
Let d (T : R) : R := (L + c * T) / s T.
Let s' (T : R) : R := sigma * / (2 * sqrt T).
Let d' (T : R) : R := (c * s T - s' T * (L + c * T)) / Rsqr (s T).

Lemma s_derivable (T : R) : 0 < T -> derivable_pt_lim s T (s' T).
Proof.
  intros HT.
  apply (derivable_pt_lim_scal sqrt sigma T (/ (2 * sqrt T))).
  apply derivable_pt_lim_sqrt, HT.
Qed.

Lemma d_maturity_derivable (T : R) :
  0 < T -> derivable_pt_lim d T (d' T).
Proof.
  intros HT.
  assert (Hs : s T <> 0).
  { apply Rgt_not_eq, Rmult_lt_0_compat; [exact sigma_pos | ].
    apply sqrt_lt_R0, HT. }
  apply (CmathFacts.derivable_pt_lim_eq
           (div_fct (plus_fct (fct_cte L) (mult_real_fct c id)) s) d T
           (((0 + c * 1) * s T
             - s' T * plus_fct (fct_cte L) (mult_real_fct c id) T)
            / Rsqr (s T))).
  - apply (derivable_pt_lim_div
             (plus_fct (fct_cte L) (mult_real_fct c id)) s T
             (0 + c * 1) (s' T)).
    + apply derivable_pt_lim_plus;
        [apply derivable_pt_lim_const
        | apply derivable_pt_lim_scal, derivable_pt_lim_id].
    + apply s_derivable, HT.
    + exact Hs.
  - intros z. unfold div_fct, plus_fct, fct_cte, mult_real_fct, id, d.
    reflexivity.
  - unfold d', plus_fct, fct_cte, mult_real_fct, id.
    f_equal. ring.
Qed.

Lemma cdf_d_maturity_derivable (T : R) :
  0 < T ->
  derivable_pt_lim (fun x => normal_cdf (d x)) T (normal_pdf (d T) * d' T).
Proof.
  intros HT.
  apply (derivable_pt_lim_comp d normal_cdf).
  - apply d_maturity_derivable, HT.
  - apply normal_cdf_derivable.
Qed.

Lemma cdf_d2_maturity_derivable (T : R) :
  0 < T ->
  derivable_pt_lim (fun x => normal_cdf (d x - s x)) T
    (normal_pdf (d T - s T) * (d' T - s' T)).
Proof.
  intros HT.
  apply (derivable_pt_lim_comp (minus_fct d s) normal_cdf).
  - apply derivable_pt_lim_minus;
      [apply d_maturity_derivable | apply s_derivable]; exact HT.
  - apply normal_cdf_derivable.
Qed.

End MaturityDerivatives.

(** X28.  Theta is minus the derivative of the price in the time to
    maturity: above the floor, the price that [black_scholes] returns is
    differentiable in the maturity field, for calls and puts, and its
    derivative is the opposite of the theta that [black_scholes] returns. *)
Theorem black_scholes_theta_is_derivative (o : OptionInput.t) (T : R) :
  eps < T ->
  derivable_pt_lim (price_of_maturity o) T (- theta_of_maturity o T).
Proof.
  intros HT. pose proof eps_pos as Heps.
  assert (HT0 : 0 < T) by lra.
  pose proof (with_maturity_balance o T HT) as Hbal. cbv zeta in Hbal.
  set (S := floored_spot o) in *. set (K := floored_strike o) in *.
  set (r := OptionInput.rate o) in *.
  set (q := OptionInput.dividend_yield o) in *.
  set (sigma := std_max (OptionInput.volatility o) eps) in *.
  set (L := ln (S / K)) in *.
  set (c := r - q + 0.5 * sigma * sigma) in *.
  assert (Hsigma : 0 < sigma) by apply floored_pos.
  set (s := fun x => sigma * sqrt x).
  set (d := fun x => (L + c * x) / s x).
  set (Fx := fun x => S * exp (- q * x)).
  set (KDx := fun x => K * exp (- r * x)).
  set (put_part := if OptionInput.is_call o then 0 else 1).
  set (g := fun x => Fx x * normal_cdf (d x)
                     - KDx x * normal_cdf (d x - s x)
                     + put_part * (KDx x - Fx x)).
  set (s' := sigma * / (2 * sqrt T)).
  set (d' := (c * s T - s' * (L + c * T)) / Rsqr (s T)).
  assert (HF : derivable_pt_lim Fx T (S * (- q * exp (- q * T))))
    by apply derivable_pt_lim_scal, decay_derivable.
  assert (HKD : derivable_pt_lim KDx T (K * (- r * exp (- r * T))))
    by apply derivable_pt_lim_scal, decay_derivable.
  assert (Hg : derivable_pt_lim g T
                 (S * (- q * exp (- q * T)) * normal_cdf (d T)
                  + Fx T * (normal_pdf (d T) * d')
                  - (K * (- r * exp (- r * T)) * normal_cdf (d T - s T)
                     + KDx T * (normal_pdf (d T - s T) * (d' - s')))
                  + put_part * (K * (- r * exp (- r * T))
                                - S * (- q * exp (- q * T))))).
  { apply (derivable_pt_lim_plus
             (minus_fct (mult_fct Fx (fun x => normal_cdf (d x)))
                (mult_fct KDx (fun x => normal_cdf (d x - s x))))
             (mult_real_fct put_part (minus_fct KDx Fx))).
    - apply derivable_pt_lim_minus.
      + apply (derivable_pt_lim_mult Fx (fun x => normal_cdf (d x))).
        * exact HF.
        * apply (cdf_d_maturity_derivable L c sigma Hsigma T HT0).
      + apply (derivable_pt_lim_mult KDx (fun x => normal_cdf (d x - s x))).
        * exact HKD.
        * apply (cdf_d2_maturity_derivable L c sigma Hsigma T HT0).
    - apply derivable_pt_lim_scal, derivable_pt_lim_minus; assumption. }
  apply (derivable_pt_lim_locally_ext g (price_of_maturity o) T eps (T + 1)).
  - lra.
  - intros z Hz. unfold price_of_maturity, with_maturity. bs_unfold.
    rewrite (std_max_left z eps) by lra.
    unfold g, put_part, d, s, Fx, KDx, c, L, S, K, sigma, r, q,
      floored_spot, floored_strike.
    destruct (OptionInput.is_call o); cbn [OptionGreeks.price];
      rewrite ?normal_cdf_opp; lra.
  - match type of Hg with
    | derivable_pt_lim _ _ ?l =>
        replace (- theta_of_maturity o T) with l; [exact Hg | ]
    end.
    unfold theta_of_maturity, with_maturity. bs_unfold.
    rewrite (std_max_left T eps) by lra.
    change (std_max (OptionInput.spot o) eps) with S.
    change (std_max (OptionInput.strike o) eps) with K.
    fold r q sigma. fold L. fold c. fold (s T). fold (d T).
    unfold Fx, KDx.
    assert (Hb1 : S * exp (- q * T) * normal_pdf (d T) * d'
                  = K * exp (- r * T) * normal_pdf (d T - s T) * d')
      by (unfold d, s; rewrite Hbal; reflexivity).
    assert (Hb2 : S * exp (- q * T) * normal_pdf (d T) * s'
                  = K * exp (- r * T) * normal_pdf (d T - s T) * s')
      by (unfold d, s; rewrite Hbal; reflexivity).
    replace (2.0 * sqrt T) with (2 * sqrt T) by lra.
    unfold Rdiv at 1 2. fold s'.
    assert (Hvega : S * exp (- q * T) * normal_pdf (d T) * sigma
                    * / (2 * sqrt T)
                    = S * exp (- q * T) * normal_pdf (d T) * s')
      by (unfold s'; ring).
    unfold put_part.
    destruct (OptionInput.is_call o); cbn [OptionGreeks.theta];
      rewrite ?normal_cdf_opp; unfold Rdiv; lra.
Qed.

Lemma black_scholes_theta_is_derivative_witness :
  eps < 1.0 /\
  derivable_pt_lim (price_of_maturity (test_option true)) 1.0
    (- theta_of_maturity (test_option true) 1.0).
Proof.
  assert (H : eps < 1.0) by (unfold eps; lra).
  split; [exact H | ].
  exact (black_scholes_theta_is_derivative (test_option true) 1.0 H).
Defined.

(* ================================================================== *)
(** * Binary64: signs and comparisons *)
(* ================================================================== *)

Module SignFacts.
Import PrimFloat SpecFloat FloatAxioms Sign.
Local Open Scope float_scope.
Local Abbreviation Prim2SF := FloatOps.Prim2SF.
Local Abbreviation prec := FloatOps.prec.
Local Abbreviation emax := FloatOps.emax.

Lemma SFsign_clear_nonneg (f : spec_float) :
  SFsign_clear f = true -> SFnonneg f = true.
Proof. destruct f as [s | s | | s m e]; simpl; auto. Qed.

(** Rounding keeps the sign it is given. *)
Lemma binary_round_aux_clear (mx ex : Z) (lx : location) :
  SFsign_clear (binary_round_aux prec emax false mx ex lx) = true.
Proof.
  unfold binary_round_aux.
  destruct (shr_fexp prec emax mx ex lx) as [mrs' e'].
  destruct (shr_fexp prec emax _ e' loc_Exact) as [mrs'' e''].
  destruct (shr_m mrs''); [reflexivity | | reflexivity].
  destruct (Z.leb e'' _); reflexivity.
Qed.

Lemma binary_round_clear (mx : positive) (ex : Z) :
  SFsign_clear (binary_round prec emax false mx ex) = true.
Proof.
  unfold binary_round.
  destruct (shl_align _ _ _) as [mz ez]. apply binary_round_aux_clear.
Qed.

Ltac by_sign x y sx sy :=
  destruct x as [sx | sx | | sx ? ?], y as [sy | sy | | sy ? ?];
  simpl; intros; try reflexivity; try discriminate;
  try (destruct sx; try discriminate); try (destruct sy; try discriminate);
  try reflexivity.

Lemma SFmul_nonneg (x y : spec_float) :
  SFnonneg x = true -> SFnonneg y = true ->
  SFnonneg (SFmul prec emax x y) = true.
Proof.
  by_sign x y sx sy. apply SFsign_clear_nonneg, binary_round_aux_clear.
Qed.

Lemma SFmul_clear (x y : spec_float) :
  SFsign_clear x = true -> SFsign_clear y = true ->
  SFsign_clear (SFmul prec emax x y) = true.
Proof. by_sign x y sx sy. apply binary_round_aux_clear. Qed.

Lemma SFmul_self_clear (x : spec_float) :
  SFsign_clear (SFmul prec emax x x) = true.
Proof.
  destruct x as [sx | sx | | sx mx ex]; simpl; try reflexivity;
    try (destruct sx; reflexivity).
  replace (xorb sx sx) with false by (destruct sx; reflexivity).
  apply binary_round_aux_clear.
Qed.

Lemma SFdiv_nonneg (x y : spec_float) :
  SFnonneg x = true -> SFsign_clear y = true ->
  SFnonneg (SFdiv prec emax x y) = true.
Proof.
  by_sign x y sx sy.
  destruct (SFdiv_core_binary _ _ _ _ _ _) as [[mz ez] lz].
  apply SFsign_clear_nonneg, binary_round_aux_clear.
Qed.

Lemma SFdiv_clear (x y : spec_float) :
  SFsign_clear x = true -> SFsign_clear y = true ->
  SFsign_clear (SFdiv prec emax x y) = true.
Proof.
  by_sign x y sx sy.
  destruct (SFdiv_core_binary _ _ _ _ _ _) as [[mz ez] lz].
  apply binary_round_aux_clear.
Qed.

Lemma SFadd_clear (x y : spec_float) :
  SFsign_clear x = true -> SFnonneg y = true ->
  SFsign_clear (SFadd prec emax x y) = true.
Proof. by_sign x y sx sy. apply binary_round_clear. Qed.

Lemma SFsqrt_clear (x : spec_float) :
  SFsign_clear x = true -> SFsign_clear (SFsqrt prec emax x) = true.
Proof.
  destruct x as [sx | sx | | sx mx ex]; simpl; intros Hx; try reflexivity;
    try (destruct sx; try discriminate; reflexivity).
  destruct sx; [discriminate | ].
  destruct (SFsqrt_core_binary _ _ _ _) as [[mz ez] lz].
  apply binary_round_aux_clear.
Qed.

(** [x < 0] is false exactly when [x] is NaN, a zero, [+inf] or positive. *)
Lemma never_negative_spec (x : float) :
  (x <? 0) = false <-> SFnonneg (Prim2SF x) = true.
Proof.
  rewrite ltb_spec. change (Prim2SF 0) with (S754_zero false).
  destruct (Prim2SF x) as [s | s | | s m e]; try destruct s; cbn;
    split; congruence.
Qed.

Lemma sign_clear_never_negative (x : float) :
  sign_clear x -> (x <? 0) = false.
Proof. intros H. apply never_negative_spec, SFsign_clear_nonneg, H. Qed.

Lemma mul_never_negative (x y : float) :
  (x <? 0) = false -> (y <? 0) = false -> (x * y <? 0) = false.
Proof. rewrite !never_negative_spec, mul_spec. apply SFmul_nonneg. Qed.

Lemma mul_sign_clear (x y : float) :
  sign_clear x -> sign_clear y -> sign_clear (x * y).
Proof. unfold sign_clear. rewrite mul_spec. apply SFmul_clear. Qed.

Lemma mul_self_sign_clear (x : float) : sign_clear (x * x).
Proof. unfold sign_clear. rewrite mul_spec. apply SFmul_self_clear. Qed.

Lemma div_never_negative (x y : float) :
  (x <? 0) = false -> sign_clear y -> (x / y <? 0) = false.
Proof.
  unfold sign_clear. rewrite !never_negative_spec, div_spec.
  apply SFdiv_nonneg.
Qed.

Lemma div_sign_clear (x y : float) :
  sign_clear x -> sign_clear y -> sign_clear (x / y).
Proof. unfold sign_clear. rewrite div_spec. apply SFdiv_clear. Qed.

Lemma add_sign_clear (x y : float) :
  sign_clear x -> (y <? 0) = false -> sign_clear (x + y).
Proof.
  unfold sign_clear. rewrite never_negative_spec, add_spec.
  apply SFadd_clear.
Qed.

Lemma sqrt_sign_clear (x : float) : sign_clear x -> sign_clear (sqrt x).
Proof. unfold sign_clear. rewrite sqrt_spec. apply SFsqrt_clear. Qed.

Lemma of_uint63_sign_clear (n : PrimInt63.int) : sign_clear (of_uint63 n).
Proof.
  unfold sign_clear. rewrite of_uint63_spec.
  pose proof (Uint63.to_Z_bounded n) as Hn.
  destruct (Uint63.to_Z n) as [ | p | p]; simpl.
  - reflexivity.
  - apply binary_round_clear.
  - lia.
Qed.

(** NaN compares with nothing, and is the only number that differs from
    itself. *)
Lemma leb_nan_r (x : float) : (x <=? nan) = false.
Proof.
  rewrite leb_spec. change (Prim2SF nan) with S754_nan.
  destruct (Prim2SF x); reflexivity.
Qed.

Lemma is_nan_eq (x : float) : is_nan x = true -> x = nan.
Proof.
  unfold is_nan. rewrite eqb_spec. intros H.
  apply Prim2SF_inj. change (Prim2SF nan) with S754_nan.
  destruct (Prim2SF x) as [s | s | | s mx ex]; try reflexivity;
    try (destruct s; discriminate).
  exfalso. revert H. unfold SFeqb, SFcompare.
  rewrite Z.compare_refl, Pos.compare_cont_refl.
  destruct s; discriminate.
Qed.

(** [+inf + x] is [+inf], or NaN when [x] is [-inf] or NaN. *)
Lemma add_infinity_l (x : float) :
  infinity + x = infinity \/ infinity + x = nan.
Proof.
  destruct (Prim2SF x) as [s | s | | s mx ex] eqn:E;
    [left | destruct s; [right | left] | right | left];
    apply Prim2SF_inj; rewrite add_spec, E; reflexivity.
Qed.

(** The comparison of binary64 numbers is antisymmetric. *)
Lemma SFcompare_antisym (x y : spec_float) :
  SFcompare y x = option_map CompOpp (SFcompare x y).
Proof.
  destruct x as [sx | sx | | sx mx ex], y as [sy | sy | | sy my ey];
    try reflexivity;
    try (destruct sx; reflexivity); try (destruct sy; reflexivity);
    try (destruct sx, sy; reflexivity).
  unfold SFcompare, option_map. f_equal.
  rewrite (Z.compare_antisym ex ey).
  replace (Pos.compare_cont Eq my mx)
    with (CompOpp (Pos.compare_cont Eq mx my))
    by (rewrite Pos.compare_cont_antisym; reflexivity).
  destruct sx, sy; try reflexivity;
    destruct (ex ?= ey)%Z; cbn; try reflexivity;
    destruct (Pos.compare_cont Eq mx my); reflexivity.
Qed.

Lemma ltb_false_leb (x y : float) :
  (x <? y) = false -> is_nan x = false -> is_nan y = false ->
  (y <=? x) = true.
Proof.
  unfold is_nan. rewrite ltb_spec, leb_spec, !eqb_spec.
  unfold SFltb, SFleb, SFeqb.
  rewrite (SFcompare_antisym (Prim2SF x) (Prim2SF y)).
  destruct (Prim2SF x) as [sx | sx | | sx mx ex];
    destruct (Prim2SF y) as [sy | sy | | sy my ey];
    try discriminate; cbn;
    try (destruct sx; cbn; congruence); try (destruct sy; cbn; congruence);
    try (destruct sx, sy; cbn; congruence).
  destruct sx, sy; cbn; try congruence;
    destruct (ex ?= ey)%Z; cbn; try congruence;
    destruct (Pos.compare_cont Eq mx my); cbn; congruence.
Qed.

End SignFacts.

(* ================================================================== *)
(** * Binary64: the sources *)
(* ================================================================== *)

Module B64Facts.
Import PrimFloat SpecFloat FloatAxioms Sign SignFacts B64.
Local Open Scope float_scope.
Local Abbreviation Prim2SF := FloatOps.Prim2SF.

Lemma special_values_annex_f : annex_f special_values.
Proof. split; reflexivity. Qed.

Lemma special_values_exp_never_negative : exp_never_negative special_values.
Proof.
  intros x. unfold special_values; cbn [Libm.exp].
  destruct (is_nan x); [reflexivity | ].
  destruct (x =? infinity); [reflexivity | ].
  destruct (x =? neg_infinity); reflexivity.
Qed.

(** Evaluation of a closed binary64 expression over a library [m] that
    meets [annex_f]: compute, rewrite with the seven equations, and
    repeat. *)
Ltac libm_laws m H :=
  let H1 := fresh in let H2 := fresh in let H3 := fresh in
  let H4 := fresh in let H5 := fresh in let H6 := fresh in
  let H7 := fresh in
  destruct m as [exp log erfc]; destruct H as [H1 H2 H3 H4 H5 H6 H7];
  vm_compute in H1, H2, H3, H4, H5, H6, H7.

Ltac libm_rewrite :=
  match goal with
  | H : _ = _ |- _ => rewrite H
  end.

Ltac libm_compute :=
  repeat (vm_compute; progress (repeat libm_rewrite)); vm_compute.

(** ** [sanitize_option] *)

Lemma std_max_floored_or_nan (a : float) :
  floored_or_nan a (std_max a sanitize_floor).
Proof.
  unfold floored_or_nan, std_max.
  destruct (is_nan a) eqn:Hnan.
  - rewrite (is_nan_eq a Hnan). reflexivity.
  - destruct (a <? sanitize_floor) eqn:Hlt; [reflexivity | ].
    apply ltb_false_leb; [exact Hlt | exact Hnan | reflexivity].
Qed.

(** X3.  On binary64, [sanitize_option] floors spot, strike, volatility and
    time to maturity at [1e-6] unless the field is NaN: a NaN field passes
    through unchanged ([NaN < 1e-6] is false), every other value comes out
    at least [1e-6].  Rate, dividend yield and the flag are copied. *)
Theorem sanitize_option_floored_or_nan (option : OptionInput.t) :
  let sanitized := sanitize_option option in
  floored_or_nan (OptionInput.spot option) (OptionInput.spot sanitized) /\
  floored_or_nan (OptionInput.strike option) (OptionInput.strike sanitized) /\
  floored_or_nan (OptionInput.volatility option)
                 (OptionInput.volatility sanitized) /\
  floored_or_nan (OptionInput.time_to_maturity option)
                 (OptionInput.time_to_maturity sanitized) /\
  OptionInput.rate sanitized = OptionInput.rate option /\
  OptionInput.dividend_yield sanitized = OptionInput.dividend_yield option /\
  OptionInput.is_call sanitized = OptionInput.is_call option.
Proof.
  cbv zeta. unfold sanitize_option.
  cbn [OptionInput.spot OptionInput.strike OptionInput.rate
       OptionInput.volatility OptionInput.time_to_maturity
       OptionInput.dividend_yield OptionInput.is_call].
  repeat split; apply std_max_floored_or_nan.
Qed.

(** ** [black_scholes] *)

(** [std::max(x, eps)] has its sign bit clear, or is NaN. *)
Lemma std_max_eps_sign_clear (a : float) : sign_clear (std_max a eps).
Proof.
  unfold std_max. destruct (a <? eps) eqn:Hlt; [reflexivity | ].
  unfold sign_clear. revert Hlt. rewrite ltb_spec.
  destruct (Prim2SF a) as [s | s | | s ma ea]; try reflexivity;
    destruct s; try reflexivity; vm_compute; discriminate.
Qed.

(** X7.  On binary64, the gamma and the vega that [black_scholes] returns
    are never negative: each is zero, positive, [+inf] or NaN, for every
    input and every library whose [exp] returns no negative number. *)
Theorem black_scholes_gamma_vega_never_negative
    (m : Libm.t) (option : OptionInput.t) :
  exp_never_negative m ->
  let greeks := black_scholes m option in
  (OptionGreeks.gamma greeks <? 0) = false /\
  (OptionGreeks.vega greeks <? 0) = false.
Proof.
  intros Hexp. cbv zeta. unfold black_scholes.
  set (S := std_max (OptionInput.spot option) eps).
  set (sigma := std_max (OptionInput.volatility option) eps).
  set (T := std_max (OptionInput.time_to_maturity option) eps).
  assert (HS : sign_clear S) by apply std_max_eps_sign_clear.
  assert (Hsigma : sign_clear sigma) by apply std_max_eps_sign_clear.
  assert (HT : sign_clear (sqrt T))
    by apply sqrt_sign_clear, std_max_eps_sign_clear.
  assert (Hpdf : forall x, (normal_pdf m x <? 0) = false).
  { intros x. unfold normal_pdf.
    apply mul_never_negative; [reflexivity | apply Hexp]. }
  destruct (OptionInput.is_call option);
    cbn [OptionGreeks.gamma OptionGreeks.vega]; split;
    repeat first
      [ apply Hexp | apply Hpdf
      | apply div_never_negative | apply mul_never_negative
      | apply mul_sign_clear | assumption
      | apply sign_clear_never_negative ].
Qed.

Lemma black_scholes_gamma_vega_never_negative_witness :
  exp_never_negative special_values /\
  let greeks := black_scholes special_values (test_option true) in
  (OptionGreeks.gamma greeks <? 0) = false /\
  (OptionGreeks.vega greeks <? 0) = false.
Proof.
  split; [exact special_values_exp_never_negative | ].
  exact (black_scholes_gamma_vega_never_negative special_values
           (test_option true) special_values_exp_never_negative).
Defined.





(** ** [implied_volatility] *)

Section OverflowingBracket.
Variable price_at : float -> float.
Variables target_price tolerance : float.




End OverflowingBracket.



Section BracketCheck.
Variable price_at : float -> float.
Variables target_price tolerance lower_bound upper_bound : float.

(** Every run of the loop follows a branch of the tree that
    [bracket_check] explores. *)
Lemma bracket_check_sound (fuel remaining : nat) (st : IvState.t) :
  bracket_check lower_bound upper_bound tolerance fuel
                (IvState.low st) (IvState.high st) = true ->
  (fuel <= remaining)%nat ->
  let st' := iv_loop price_at target_price tolerance remaining st in
  IvState.converged st' = true /\
  within_bounds lower_bound upper_bound (IvState.mid st') = true /\
  (IvState.iteration st' < IvState.iteration st + N.of_nat fuel)%N.
Proof.
  revert remaining st.
  induction fuel as [ | fuel IH]; intros remaining st Hcheck Hfuel;
    [discriminate | ].
  destruct remaining as [ | remaining]; [lia | ].
  cbn [bracket_check] in Hcheck. cbv zeta in Hcheck.
  cbv zeta. cbn [iv_loop]. unfold iv_body. rewrite Nat2N.inj_succ.
  set (mid := 0.5 * (IvState.low st + IvState.high st)) in *.
  destruct (within_bounds lower_bound upper_bound mid) eqn:Hmid;
    [ | discriminate].
  destruct (abs (price_at mid - target_price) <? tolerance).
  { cbn [IvState.converged IvState.mid IvState.iteration].
    repeat split; [exact Hmid | lia]. }
  destruct (0.0 <? price_at mid - target_price).
  - destruct (abs (mid - IvState.low st) <? tolerance).
    + cbn [IvState.converged IvState.mid IvState.iteration].
      repeat split; [exact Hmid | lia].
    + destruct (bracket_check _ _ _ fuel (IvState.low st) mid) eqn:Hleft;
        [ | discriminate].
      match goal with
      | |- context [iv_loop _ _ _ remaining ?s] =>
          destruct (IH remaining s) as (Hc & Hb & Hi);
            [exact Hleft | lia | ]
      end.
      cbn [IvState.iteration IvState.next_iteration] in Hi.
      repeat split; [exact Hc | exact Hb | lia].
  - destruct (abs (mid - IvState.low st) <? tolerance);
      [ | destruct (bracket_check _ _ _ fuel (IvState.low st) mid);
          [ | discriminate]].
    all: destruct (abs (IvState.high st - mid) <? tolerance);
      [cbn [IvState.converged IvState.mid IvState.iteration];
       repeat split; [exact Hmid | lia] | ].
    all: match goal with
         | |- context [iv_loop _ _ _ ?r ?s] =>
             destruct (IH r s) as (Hc & Hb & Hi);
               [exact Hcheck | lia | ]
         end.
    all: cbn [IvState.iteration IvState.next_iteration] in Hi;
      repeat split; [exact Hc | exact Hb | lia].
Qed.

End BracketCheck.

Lemma default_bracket_check :
  bracket_check default_lower_bound default_upper_bound default_tolerance
                23 default_lower_bound default_upper_bound = true.
Proof. vm_compute. reflexivity. Qed.

(** X29.  On binary64, with the default arguments (bounds [[1e-6, 5.0]],
    tolerance [1e-6], [max_iterations = 100]), [implied_volatility] reports
    [converged = true] after at most 23 iterations and returns a volatility
    in [[1e-6, 5.0]], for every option, target price (NaN included) and
    library: every bracket that 23 rounded halvings can reach has its
    midpoint within the bounds, and is narrower than the tolerance at the
    latest after the 23rd. *)
Theorem implied_volatility_default_binary64
    (m : Libm.t) (option : OptionInput.t) (target_price : float) :
  let result :=
    implied_volatility m option target_price default_lower_bound
      default_upper_bound default_tolerance default_max_iterations in
  ImpliedVolatilityResult.converged result = true /\
  (1 <= ImpliedVolatilityResult.iterations result <= 23)%N /\
  within_bounds default_lower_bound default_upper_bound
    (ImpliedVolatilityResult.implied_volatility result) = true.
Proof.
  cbv zeta. unfold implied_volatility.
  cbn [ImpliedVolatilityResult.converged ImpliedVolatilityResult.iterations
       ImpliedVolatilityResult.implied_volatility].
  destruct (bracket_check_sound (guess_price m option) target_price
              default_tolerance default_lower_bound default_upper_bound
              23 (N.to_nat default_max_iterations)
              (iv_init default_lower_bound default_upper_bound)
              default_bracket_check) as (Hc & Hb & Hi).
  { unfold default_max_iterations. lia. }
  cbn [IvState.iteration iv_init] in Hi.
  change (N.of_nat 23) with 23%N in Hi.
  split; [exact Hc | ]. split; [ | exact Hb].
  unfold size_t_modulus. rewrite N.mod_small by lia. lia.
Qed.

(** ** [monte_carlo_price] *)

Lemma std_max_zero_never_negative (x : float) : (std_max x 0.0 <? 0) = false.
Proof.
  unfold std_max. destruct (x <? 0.0) eqn:E; [reflexivity | exact E].
Qed.

Section MonteCarloSign.
Variable m : Libm.t.
Variable g : Rng.t.
Variable option : OptionInput.t.

Lemma mc_payoff_never_negative (z : float) :
  (mc_payoff m option z <? 0) = false.
Proof.
  unfold mc_payoff.
  destruct (OptionInput.is_call option); apply std_max_zero_never_negative.
Qed.

Lemma mc_simulate_sum_clear (n : nat) (st : mc_state g) :
  sign_clear (mc_sum g st) ->
  sign_clear (mc_sum g (mc_simulate m g option n st)).
Proof.
  revert st. induction n as [ | n IH]; intros st Hst; [exact Hst | ].
  cbn [mc_simulate]. apply IH. unfold mc_path.
  destruct (Rng.standard_normal g (mc_rng g st)) as [z rng'].
  cbn [mc_sum]. apply add_sign_clear; [exact Hst | ].
  apply mc_payoff_never_negative.
Qed.

Lemma mc_variance_sum_clear (mean : float) (payoffs : list float) :
  sign_clear (mc_variance_sum mean payoffs).
Proof.
  unfold mc_variance_sum.
  assert (H : forall acc, sign_clear acc ->
            sign_clear (fold_left (fun variance_sum payoff =>
                           let diff := payoff - mean in
                           variance_sum + diff * diff) payoffs acc)).
  { induction payoffs as [ | p l IH]; intros acc Hacc; [exact Hacc | ].
    cbn [fold_left]. apply IH. cbv zeta.
    apply add_sign_clear; [exact Hacc | ].
    apply sign_clear_never_negative, mul_self_sign_clear. }
  apply H. reflexivity.
Qed.

End MonteCarloSign.

Lemma double_of_uint32_sign_clear (n : N) : sign_clear (double_of_uint32 n).
Proof. apply of_uint63_sign_clear. Qed.

(** C9.  On binary64, neither field of the result of [monte_carlo_price] is
    ever negative: the price and the standard error are zero, positive,
    [+inf] or NaN, for every option, path count, seed and generator, and
    every library whose [exp] returns no negative number.  (Every payoff
    is [std::max(., 0.0)]; sums, squares, quotients and square roots of
    numbers that are not negative are not negative.) *)
Theorem monte_carlo_price_never_negative
    (m : Libm.t) (g : Rng.t) (option : OptionInput.t) (paths seed : N) :
  exp_never_negative m ->
  let result := monte_carlo_price m g option paths seed in
  (MonteCarloResult.price result <? 0) = false /\
  (MonteCarloResult.standard_error result <? 0) = false.
Proof.
  intros Hexp. cbv zeta. unfold monte_carlo_price.
  destruct (paths =? 0)%N; [split; reflexivity | ].
  cbn [MonteCarloResult.price MonteCarloResult.standard_error].
  pose proof (double_of_uint32_sign_clear paths) as Hn.
  split; apply mul_never_negative; try apply Hexp;
    apply sign_clear_never_negative.
  - apply div_sign_clear; [ | exact Hn].
    apply mc_simulate_sum_clear. reflexivity.
  - apply div_sign_clear; [ | apply sqrt_sign_clear, Hn].
    apply sqrt_sign_clear, div_sign_clear; [ | exact Hn].
    apply mc_variance_sum_clear.
Qed.

Lemma monte_carlo_price_never_negative_witness :
  exp_never_negative special_values /\
  let result :=
    monte_carlo_price special_values constant_normal (test_option true) 3 0 in
  (MonteCarloResult.price result <? 0) = false /\
  (MonteCarloResult.standard_error result <? 0) = false.
Proof.
  split; [exact special_values_exp_never_negative | ].
  exact (monte_carlo_price_never_negative special_values constant_normal
           (test_option true) 3 0 special_values_exp_never_negative).
Defined.

Section OverflowingDrift.
Variable m : Libm.t.
Hypothesis m_annex_f : annex_f m.

Lemma overflowing_drift_payoff (z : float) :
  mc_payoff m overflowing_drift z = infinity \/
  mc_payoff m overflowing_drift z = nan.
Proof.
  unfold mc_payoff.
  replace (mc_drift overflowing_drift) with infinity by reflexivity.
  pose proof m_annex_f as H. libm_laws m H.
  destruct (add_infinity_l (mc_diffusion overflowing_drift * z)) as [E | E];
    rewrite E; [left | right]; libm_compute; reflexivity.
Qed.

Lemma overflowing_drift_nan (g : Rng.t) (seed : N) :
  let result := monte_carlo_price m g overflowing_drift 1 seed in
  is_nan (MonteCarloResult.price result) = true /\
  is_nan (MonteCarloResult.standard_error result) = true.
Proof.
  cbv zeta. unfold monte_carlo_price.
  change (1 =? 0)%N with false. cbv iota.
  change (N.to_nat 1) with 1%nat. cbn [mc_simulate]. unfold mc_path.
  cbn [mc_rng mc_payoffs mc_sum].
  destruct (Rng.standard_normal g (Rng.mt19937 g seed)) as [z rng'].
  cbn [mc_rng mc_payoffs mc_sum app].
  replace (mc_discount m overflowing_drift) with 0.
  2:{ unfold mc_discount. pose proof m_annex_f as H. libm_laws m H.
      libm_compute. reflexivity. }
  destruct (overflowing_drift_payoff z) as [E | E]; rewrite E;
    split; reflexivity.
Qed.

End OverflowingDrift.

(** Both fields are NaN on binary64 at a clamped specification.  With
    [S = K = 100], [r = 1e308], [q = 0], [sigma = 0.2] and [T = 1e308]:
    [r * T] overflows, so [drift] is [+inf] and [discount = exp (-inf)] is
    [0]; [drift + diffusion * z] is [+inf] or NaN for every variate [z], so
    the payoff of the one path is [+inf] or NaN; the price is [0 * inf] or
    [0 * NaN], the deviation from the mean is [inf - inf] or NaN, and both
    fields are NaN: neither is non-negative. *)
Lemma monte_carlo_price_overflow :
  clamped overflowing_drift = true /\
  forall (m : Libm.t) (g : Rng.t) (seed : N), annex_f m ->
    let result := monte_carlo_price m g overflowing_drift 1 seed in
    (0 <=? MonteCarloResult.price result) = false /\
    (0 <=? MonteCarloResult.standard_error result) = false.
Proof.
  split; [reflexivity | ]. intros m g seed H. cbv zeta.
  destruct (overflowing_drift_nan m H g seed) as [Hp He]. cbv zeta in Hp, He.
  rewrite (is_nan_eq _ Hp), (is_nan_eq _ He). split; apply leb_nan_r.
Qed.

End B64Facts.
